(** * Arabic text aligner and translator: the adapters and the export path

    A shallow embedding of [src/services/pdfService.ts] (and of its second
    copy, [src/unnamed/part_000]), [src/services/geminiService.ts] (and of its
    earlier copy, [src/unnamed/part_001]) and of [src/App.tsx]: its two event
    handlers and the page it renders, with the properties the specification
    states about them and further properties of the code.

    JavaScript strings are sequences of UTF-16 code units; objects and arrays
    live in a store and are passed by reference; the docx library, the file
    saver and the translation service are outside the repository and appear as
    oracles. *)

From Stdlib Require Import NArith List Ascii String Bool Lia.
From stdpp Require Import base option list gmap.

Local Open Scope N_scope.
Set Warnings "-register-all".


(** ** JavaScript strings *)

(** A code unit is a number (below 2^16 in a real string, which no definition
    here relies on). *)
Definition jsstring := list N.

(** An ASCII literal of the source as a [jsstring]. *)
Definition js (s : string) : jsstring :=
  map N_of_ascii (list_ascii_of_string s).

Definition SP : N := 32.
Definition HYPHEN : N := 45.
Definition LF : N := 10.
Definition CR : N := 13.

Definition is_digit (c : N) : bool := (48 <=? c) && (c <=? 57).
Definition is_upper_az (c : N) : bool := (65 <=? c) && (c <=? 90).
Definition is_lower_az (c : N) : bool := (97 <=? c) && (c <=? 122).
Definition is_letter (c : N) : bool := is_upper_az c || is_lower_az c.
Definition is_ascii (c : N) : bool := c <? 128.

(** ECMAScript's WhiteSpace and LineTerminator code points: what the regular
    expression class [\s] matches and what [String.prototype.trim] strips. *)
Definition is_ws (c : N) : bool :=
  ((9 <=? c) && (c <=? 13)) || (c =? 32) || (c =? 160) || (c =? 5760)
  || ((8192 <=? c) && (c <=? 8202)) || (c =? 8232) || (c =? 8233)
  || (c =? 8239) || (c =? 8287) || (c =? 12288) || (c =? 65279).

(** [s.split(' ')]: the pieces between the separators, empty pieces kept; the
    empty string gives one empty piece. *)
Fixpoint split (sep : N) (s : jsstring) : list jsstring :=
  match s with
  | [] => [[]]
  | c :: r =>
      if c =? sep then [] :: split sep r
      else match split sep r with
           | w :: ws => (c :: w) :: ws
           | [] => [[c]]
           end
  end.

(** [ws.join(sep)]. *)
Fixpoint join (sep : jsstring) (ws : list jsstring) : jsstring :=
  match ws with
  | [] => []
  | [w] => w
  | w :: rest => w ++ sep ++ join sep rest
  end.

(** [w.charAt(0)] is the first code unit as a string, or the empty string. *)
Definition charAt0 (w : jsstring) : jsstring :=
  match w with
  | [] => []
  | c :: _ => [c]
  end.

(** [w.slice(1)]. *)
Definition slice1 (w : jsstring) : jsstring := drop 1 w.

(** [s.slice(0, n)]. *)
Definition slice0 (n : nat) (s : jsstring) : jsstring := take n s.

Fixpoint trimStart (s : jsstring) : jsstring :=
  match s with
  | [] => []
  | c :: r => if is_ws c then trimStart r else s
  end.

Definition trimEnd (s : jsstring) : jsstring := rev (trimStart (rev s)).

(** [s.trim()]. *)
Definition trim (s : jsstring) : jsstring := trimEnd (trimStart s).

(** [!s] for a string [s]: only the empty string is falsy. *)
Definition falsy (s : jsstring) : bool :=
  match s with
  | [] => true
  | _ => false
  end.

(** ** Case conversion

    [String.prototype.toLowerCase] and [toUpperCase] are the platform's: the
    Unicode default case conversions, which may change the length of a string
    (the upper case of U+00DF is the two letters SS) and depend on context
    (final sigma).  The development is stated over any conversion that has the
    properties below, all of which hold of ECMAScript's:
    on ASCII strings they are the ASCII conversions; lower-casing acts on
    the words between spaces one by one and brings no space into a word; the
    upper case of a code unit that is no space contains no space. *)

Definition ascii_lower (c : N) : N := if is_upper_az c then c + 32 else c.
Definition ascii_upper (c : N) : N := if is_lower_az c then c - 32 else c.

Class CaseConversion := {
  toLowerCase : jsstring -> jsstring;
  toUpperCase : jsstring -> jsstring;
  toLowerCase_ascii : forall s,
    forallb is_ascii s = true -> toLowerCase s = map ascii_lower s;
  toUpperCase_ascii : forall s,
    forallb is_ascii s = true -> toUpperCase s = map ascii_upper s;
  toLowerCase_words : forall a b,
    toLowerCase (a ++ SP :: b) = toLowerCase a ++ SP :: toLowerCase b;
  toLowerCase_no_space : forall a, SP ∉ a -> SP ∉ toLowerCase a;
  toUpperCase_no_space : forall c, c <> SP -> SP ∉ toUpperCase [c]
}.

(** The conversions of the Basic Latin and Latin-1 Supplement blocks
    (U+0000 to U+00FF), exact there; other code units are left alone, so this
    instance speaks for ECMAScript on Latin-1 strings only. *)
Definition latin1_lower (c : N) : N :=
  if is_upper_az c || ((192 <=? c) && (c <=? 222) && negb (c =? 215))
  then c + 32 else c.

Definition latin1_upper (c : N) : jsstring :=
  if is_lower_az c || ((224 <=? c) && (c <=? 254) && negb (c =? 247))
  then [c - 32]
  else if c =? 223 then [83; 83]
  else if c =? 181 then [924]
  else if c =? 255 then [376]
  else [c].

Definition latin1_toLowerCase (s : jsstring) : jsstring := map latin1_lower s.
Definition latin1_toUpperCase (s : jsstring) : jsstring :=
  flat_map latin1_upper s.

(** ** [src/services/pdfService.ts]: the two string helpers

    The same two functions, character for character, open
    [src/unnamed/part_000]. *)

(** What [/[^a-z0-9\s-]/gi] does not match: without the [u] flag the [i]
    flag never folds a code unit above 127 onto an ASCII letter, so the
    letters of the class are the 52 ASCII ones. *)
Definition filename_char (c : N) : bool :=
  is_letter c || is_digit c || is_ws c || (c =? HYPHEN).

(** [s.replace(/\s+/g, ' ')]: every maximal run of white space becomes one
    space; [in_run] says that the previous code unit was white space. *)
Fixpoint replace_ws_runs (in_run : bool) (s : jsstring) : jsstring :=
  match s with
  | [] => []
  | c :: r =>
      if is_ws c then
        if in_run then replace_ws_runs true r
        else SP :: replace_ws_runs true r
      else c :: replace_ws_runs false r
  end.

Definition FALLBACK_NAME : jsstring := js "translation".

Definition sanitizeFilename (name : jsstring) : jsstring :=
  let cleaned :=
    slice0 50 (replace_ws_runs false (trim (List.filter filename_char name))) in
  if falsy cleaned then FALLBACK_NAME else cleaned.

Section TitleCase.
Context `{CaseConversion}.

Definition capitalize (word : jsstring) : jsstring :=
  toUpperCase (charAt0 word) ++ slice1 word.

Definition toTitleCase (str : jsstring) : jsstring :=
  if falsy str then []
  else join [SP] (map capitalize (split SP (toLowerCase str))).

(** The specification's wording of title-casing, as a scan: every code unit
    of the lower-cased string is kept as it is, except the first one of each
    word, which is upper-cased; only a space ends a word, and every space is
    copied. *)
Fixpoint title_scan (word_start : bool) (s : jsstring) : jsstring :=
  match s with
  | [] => []
  | c :: r =>
      if c =? SP then SP :: title_scan true r
      else (if word_start then toUpperCase [c] else [c]) ++ title_scan false r
  end.

Definition titleCaseSpec (str : jsstring) : jsstring :=
  title_scan true (toLowerCase str).

End TitleCase.

(** ** The store, the effects and the outside world

    A [TranslationPair] is a mutable object and a [TranslationPair[]] an array
    of references to such objects; both are passed by reference.  The store
    maps locations to objects.  The TypeScript types promise that a reference
    has the right kind; where the store breaks the promise (an element that is
    [undefined] or [null], a reference of the wrong kind) the read throws a
    [TypeError], as reading a property of [undefined] does. *)

Definition loc := positive.

Record TranslationPair := { arabic : jsstring; english : jsstring }.

Inductive object :=
| OPair (p : TranslationPair)
| OArray (elems : list loc).

(** A thrown value: an [Error] instance with its message, or anything else. *)
Inductive thrown :=
| ErrorObj (message : jsstring)
| NotAnError (description : jsstring).

Definition TypeError : thrown :=
  ErrorObj (js "Cannot read properties of undefined").

(** The docx library's document description, as [exportToWord] builds it.
    An option the source leaves out is [None] or [false]. *)
Inductive AlignmentType := CENTER | LEFT | RIGHT.
Inductive UnderlineType := SINGLE.
Inductive VerticalAlign := TOP.
Inductive WidthType := DXA.
Inductive PageOrientation := LANDSCAPE.

Record TextRun := {
  text : jsstring;
  font : jsstring;
  size : N;
  bold : bool;
  underline : option UnderlineType;
  rtl : bool
}.

Record Paragraph := {
  alignment : option AlignmentType;
  bidirectional : bool;
  para_text : option jsstring;
  para_children : list TextRun
}.

Record TableCell := {
  verticalAlign : VerticalAlign;
  cell_children : list Paragraph
}.

Record TableRow := {
  cantSplit : bool;
  row_children : list TableCell
}.

Record Table := {
  rows : list TableRow;
  width : N * WidthType;
  columnWidths : list N
}.

Inductive SectionChild :=
| ChildParagraph (p : Paragraph)
| ChildTable (t : Table).

Record Margin := { top : N; right : N; bottom : N; left : N }.

Record Document := {
  page_width : N;
  page_height : N;
  orientation : PageOrientation;
  margin : Margin;
  section_children : list SectionChild
}.

Definition Blob := list N.

(** How the promise returned by [Packer.toBlob] settles, when the call
    returns one. *)
Inductive settlement :=
| Fulfilled (blob : Blob)
| Rejected (reason : thrown).

Inductive PackResult :=
| PackThrows (e : thrown)
| PackReturns (promise : settlement).

(** The docx library and [file-saver]: whether building the document
    description throws, what [Packer.toBlob] does with a document, and whether
    [saveAs] throws. *)
Record Libraries := {
  docx_construct : Document -> option thrown;
  Packer_toBlob : Document -> PackResult;
  saveAs : Blob -> jsstring -> option thrown
}.

(** One [console.error] call: the message and the value logged with it. *)
Definition LogEntry : Type := jsstring * option thrown.

Record World := {
  heap : gmap loc object;
  console : list LogEntry;
  documents : list Document;
  saved : list (Blob * jsstring)
}.

Definition set_heap (h : gmap loc object) (w : World) : World :=
  {| heap := h; console := console w; documents := documents w;
     saved := saved w |}.

Inductive completion (A : Type) :=
| Normal (a : A)
| Abrupt (e : thrown).
Arguments Normal {A} a.
Arguments Abrupt {A} e.

(** Computations that read and extend the world and may throw. *)
Definition M (A : Type) : Type := World -> completion A * World.

Definition ret {A} (a : A) : M A := fun w => (Normal a, w).

Definition throw {A} (e : thrown) : M A := fun w => (Abrupt e, w).

Definition bind {A B} (m : M A) (k : A -> M B) : M B :=
  fun w =>
    match m w with
    | (Normal a, w') => k a w'
    | (Abrupt e, w') => (Abrupt e, w')
    end.

Declare Scope js_scope.
Delimit Scope js_scope with js.
Notation "x <- c1 ;; c2" := (bind c1 (fun x => c2))
  (at level 100, c1 at next level, right associativity) : js_scope.
Notation "c1 ;; c2" := (bind c1 (fun _ => c2))
  (at level 100, right associativity) : js_scope.
Local Open Scope js_scope.

(** [try { m } catch (e) { ... }]: the completion of [m] as a value. *)
Definition try {A} (m : M A) : M (completion A) :=
  fun w => let (r, w') := m w in (Normal r, w').

Fixpoint mapM {A B} (f : A -> M B) (l : list A) : M (list B) :=
  match l with
  | [] => ret []
  | a :: r => b <- f a ;; bs <- mapM f r ;; ret (b :: bs)
  end.

Definition get_object (l : loc) : M object :=
  fun w =>
    match heap w !! l with
    | Some o => (Normal o, w)
    | None => (Abrupt TypeError, w)
    end.

Definition alloc (o : object) : M loc :=
  fun w =>
    let l := fresh (dom (heap w)) in
    (Normal l, set_heap (<[l := o]> (heap w)) w).

(** The elements of the array [a].  By its type [a] is an array.  Reading
    [length], an index or a method of an object of another kind is outside
    this model, which stops with a [TypeError] there. *)
Definition array_elems (a : loc) : M (list loc) :=
  o <- get_object a ;;
  match o with
  | OArray es => ret es
  | OPair _ => throw TypeError
  end.

(** [a.length]. *)
Definition array_length (a : loc) : M nat :=
  es <- array_elems a ;; ret (length es).

(** [a[i]]: [undefined] past the end. *)
Definition array_get (a : loc) (i : nat) : M (option loc) :=
  es <- array_elems a ;; ret (es !! i).

(** [a.slice(i)]: a new array holding the same references. *)
Definition array_slice (a : loc) (i : nat) : M loc :=
  es <- array_elems a ;; alloc (OArray (drop i es)).

(** The array literal [[]]. *)
Definition array_literal (es : list loc) : M loc := alloc (OArray es).

(** The pair a property of [p] is read from; [null] and [undefined] throw.
    By its type an element of the sequence is a pair.  An element of another
    kind, whose [arabic] and [english] would be [undefined], is outside this
    model, which stops with a [TypeError] there. *)
Definition get_pair (p : option loc) : M TranslationPair :=
  match p with
  | None => throw TypeError
  | Some l =>
      o <- get_object l ;;
      match o with
      | OPair tp => ret tp
      | OArray _ => throw TypeError
      end
  end.

(** [pair.arabic] and [pair.english]. *)
Definition get_arabic (p : option loc) : M jsstring :=
  tp <- get_pair p ;; ret (arabic tp).

Definition get_english (p : option loc) : M jsstring :=
  tp <- get_pair p ;; ret (english tp).

Definition console_error (msg : jsstring) (v : option thrown) : M unit :=
  fun w =>
    (Normal tt,
     {| heap := heap w; console := console w ++ [(msg, v)];
        documents := documents w; saved := saved w |}).

(** ** [src/services/pdfService.ts]: [exportToWord] *)

Definition FONT_FAMILY : jsstring := js "Arial".
Definition FONT_SIZE_PT : N := 24.
Definition FONT_SIZE_HALF_PT : N := FONT_SIZE_PT * 2.
Definition tableWidth : N := 14400.
Definition columnWidth : N := tableWidth / 2.

Definition spacer : Paragraph :=
  {| alignment := None; bidirectional := false; para_text := Some [];
     para_children := [] |}.

Definition englishTitle (englishTitleText : jsstring) : Paragraph :=
  {| alignment := Some CENTER; bidirectional := false; para_text := None;
     para_children :=
       [ {| text := englishTitleText; font := FONT_FAMILY;
            size := FONT_SIZE_HALF_PT; bold := true;
            underline := Some SINGLE; rtl := false |} ] |}.

Definition bodyTable (tableRows : list TableRow) : Table :=
  {| rows := tableRows; width := (tableWidth, DXA);
     columnWidths := [columnWidth; columnWidth] |}.

Definition doc (children : list SectionChild) : Document :=
  {| page_width := 15840; page_height := 12240; orientation := LANDSCAPE;
     margin := {| top := 720; right := 720; bottom := 720; left := 720 |};
     section_children := children |}.

(** The texts of a document, in document order. *)
Definition paragraph_texts (p : Paragraph) : list jsstring :=
  match para_text p with
  | Some t => [t]
  | None => []
  end ++ map text (para_children p).

Definition cell_texts (c : TableCell) : list jsstring :=
  flat_map paragraph_texts (cell_children c).

Definition row_texts (r : TableRow) : list jsstring :=
  flat_map cell_texts (row_children r).

Definition child_texts (c : SectionChild) : list jsstring :=
  match c with
  | ChildParagraph p => paragraph_texts p
  | ChildTable t => flat_map row_texts (rows t)
  end.

Definition document_texts (d : Document) : list jsstring :=
  flat_map child_texts (section_children d).

(** The tables of a document. *)
Definition tables (d : Document) : list Table :=
  flat_map (fun c => match c with
                     | ChildTable t => [t]
                     | ChildParagraph _ => []
                     end)
           (section_children d).

(** What [exportToWord] leaves behind when it returns: the promise of
    [Packer.toBlob(doc)] with the two reactions registered on it, which close
    over [englishTitleText]. *)
Record Pending := {
  pending_promise : settlement;
  pending_title : jsstring
}.

(** [new Document(...)] after its parts: the library may throw; the
    description it was given is recorded. *)
Definition new_Document (lib : Libraries) (d : Document) : M Document :=
  fun w =>
    match docx_construct lib d with
    | Some e => (Abrupt e, w)
    | None =>
        (Normal d,
         {| heap := heap w; console := console w;
            documents := documents w ++ [d]; saved := saved w |})
    end.

Definition call_toBlob (lib : Libraries) (d : Document) : M settlement :=
  match Packer_toBlob lib d with
  | PackThrows e => throw e
  | PackReturns p => ret p
  end.

(** A call of [saveAs] is recorded, whether or not it throws afterwards. *)
Definition call_saveAs (lib : Libraries) (blob : Blob) (filename : jsstring)
  : M unit :=
  fun w =>
    let w' := {| heap := heap w; console := console w;
                 documents := documents w;
                 saved := saved w ++ [(blob, filename)] |} in
    match saveAs lib blob filename with
    | Some e => (Abrupt e, w')
    | None => (Normal tt, w')
    end.

Definition NO_DATA : jsstring := js "No data available to export.".
Definition GENERATION_ERROR : jsstring := js "Error generating Word document:".
Definition FILENAME_SUFFIX : jsstring := js " (Arabic + English).docx".

(** The [.then] and [.catch] reactions of the last statement of
    [exportToWord], which run when the promise settles.  The statement is the
    same in both copies of the file. *)
Definition exportToWord_reactions (lib : Libraries) (p : Pending) : M unit :=
  match pending_promise p with
  | Fulfilled blob =>
      let baseFilename := sanitizeFilename (pending_title p) in
      let filename := baseFilename ++ FILENAME_SUFFIX in
      r <- try (call_saveAs lib blob filename) ;;
      match r with
      | Normal _ => ret tt
      | Abrupt error => console_error GENERATION_ERROR (Some error)
      end
  | Rejected error => console_error GENERATION_ERROR (Some error)
  end.

Module PdfService.
Section Exporter.
Context `{CaseConversion} (lib : Libraries).

Definition arabicTitle (titleArabic : jsstring) : Paragraph :=
  {| alignment := Some CENTER; bidirectional := true; para_text := None;
     para_children :=
       [ {| text := titleArabic; font := FONT_FAMILY;
            size := FONT_SIZE_HALF_PT; bold := true;
            underline := Some SINGLE; rtl := true |} ] |}.

Definition arabicCell (pairArabic : jsstring) : TableCell :=
  {| verticalAlign := TOP;
     cell_children :=
       [ {| alignment := None; bidirectional := true; para_text := None;
            para_children :=
              [ {| text := pairArabic; font := FONT_FAMILY;
                   size := FONT_SIZE_HALF_PT; bold := false;
                   underline := None; rtl := true |} ] |} ] |}.

Definition englishCell (pairEnglish : jsstring) : TableCell :=
  {| verticalAlign := TOP;
     cell_children :=
       [ {| alignment := Some LEFT; bidirectional := false; para_text := None;
            para_children :=
              [ {| text := pairEnglish; font := FONT_FAMILY;
                   size := FONT_SIZE_HALF_PT; bold := false;
                   underline := None; rtl := false |} ] |} ] |}.

(** The callback of [bodyPairs.map]. *)
Definition tableRow (pair : loc) : M TableRow :=
  a <- get_arabic (Some pair) ;;
  e <- get_english (Some pair) ;;
  ret {| cantSplit := false; row_children := [arabicCell a; englishCell e] |}.

(** [data] is [None] for [null] and [undefined]. *)
Definition exportToWord (data : option loc) : M (option Pending) :=
  match data with
  | None => console_error NO_DATA None ;; ret None
  | Some data =>
      len <- array_length data ;;
      if Nat.eqb len 0 then console_error NO_DATA None ;; ret None
      else
        titlePair <- array_get data 0 ;;
        bodyPairs <- (if Nat.ltb 1 len then array_slice data 1
                      else array_literal []) ;;
        titleEnglish <- get_english titlePair ;;
        let englishTitleText := toTitleCase titleEnglish in
        titleArabic <- get_arabic titlePair ;;
        bodyElems <- array_elems bodyPairs ;;
        tableRows <- mapM tableRow bodyElems ;;
        d <- new_Document lib
               (doc ([ChildParagraph (arabicTitle titleArabic);
                      ChildParagraph (englishTitle englishTitleText);
                      ChildParagraph spacer]
                     ++ (if Nat.ltb 0 (length bodyElems)
                         then [ChildTable (bodyTable tableRows)] else []))) ;;
        promise <- call_toBlob lib d ;;
        ret (Some {| pending_promise := promise;
                     pending_title := englishTitleText |})
  end.

(** The call together with the reactions that follow it. *)
Definition exportToWord_settled (data : option loc) : M unit :=
  p <- exportToWord data ;;
  match p with
  | Some p => exportToWord_reactions lib p
  | None => ret tt
  end.

End Exporter.
End PdfService.

(** ** [src/unnamed/part_000]: the second copy of the exporter

    It differs from [src/services/pdfService.ts] in the body cells, which
    [createParagraphsFromText] fills with one paragraph per line, in the rows,
    which may not split, and in the Arabic title, which is not bidirectional. *)

(** [text.split(/\r?\n/)]: a line ends at a line feed, with the carriage
    return before it when there is one. *)
Fixpoint split_lines (s : jsstring) : list jsstring :=
  match s with
  | [] => [[]]
  | c :: r =>
      if c =? LF then [] :: split_lines r
      else
        match r with
        | c' :: r' =>
            if (c =? CR) && (c' =? LF) then
              match split_lines r with
              | _ :: ls => [] :: ls
              | [] => [[]]
              end
            else
              match split_lines r with
              | l :: ls => (c :: l) :: ls
              | [] => [[c]]
              end
        | [] => [[c]]
        end
  end.

Module Part000.
Section Exporter.
Context `{CaseConversion} (lib : Libraries).

Definition createParagraphsFromText (text : jsstring) (isRtl : bool)
  (alignment : AlignmentType) : list Paragraph :=
  let lines := split_lines text in
  map (fun line =>
         {| alignment := Some alignment; bidirectional := false;
            para_text := None;
            para_children :=
              [ {| text := trim line; font := FONT_FAMILY;
                   size := FONT_SIZE_HALF_PT; bold := false;
                   underline := None; rtl := isRtl |} ] |})
      lines.

Definition arabicTitle (titleArabic : jsstring) : Paragraph :=
  {| alignment := Some CENTER; bidirectional := false; para_text := None;
     para_children :=
       [ {| text := titleArabic; font := FONT_FAMILY;
            size := FONT_SIZE_HALF_PT; bold := true;
            underline := Some SINGLE; rtl := true |} ] |}.

Definition tableRow (pair : loc) : M TableRow :=
  a <- get_arabic (Some pair) ;;
  e <- get_english (Some pair) ;;
  ret {| cantSplit := true;
         row_children :=
           [ {| verticalAlign := TOP;
                cell_children := createParagraphsFromText a true RIGHT |};
             {| verticalAlign := TOP;
                cell_children := createParagraphsFromText e false LEFT |} ] |}.

Definition exportToWord (data : option loc) : M (option Pending) :=
  match data with
  | None => console_error NO_DATA None ;; ret None
  | Some data =>
      len <- array_length data ;;
      if Nat.eqb len 0 then console_error NO_DATA None ;; ret None
      else
        titlePair <- array_get data 0 ;;
        bodyPairs <- (if Nat.ltb 1 len then array_slice data 1
                      else array_literal []) ;;
        titleEnglish <- get_english titlePair ;;
        let englishTitleText := toTitleCase titleEnglish in
        titleArabic <- get_arabic titlePair ;;
        bodyElems <- array_elems bodyPairs ;;
        tableRows <- mapM tableRow bodyElems ;;
        d <- new_Document lib
               (doc ([ChildParagraph (arabicTitle titleArabic);
                      ChildParagraph (englishTitle englishTitleText);
                      ChildParagraph spacer]
                     ++ (if Nat.ltb 0 (length bodyElems)
                         then [ChildTable (bodyTable tableRows)] else []))) ;;
        promise <- call_toBlob lib d ;;
        ret (Some {| pending_promise := promise;
                     pending_title := englishTitleText |})
  end.

(** The call together with the reactions that follow it. *)
Definition exportToWord_settled (data : option loc) : M unit :=
  p <- exportToWord data ;;
  match p with
  | Some p => exportToWord_reactions lib p
  | None => ret tt
  end.

End Exporter.
End Part000.

(** ** JSON

    [JSON.parse] is the platform's.  It is modelled as a parser of the JSON
    grammar (ECMA-404) over code units.  A number keeps its lexeme; an object
    keeps its members in source order, and the last member of a name is the
    one a property read returns. *)

Inductive json :=
| JNull
| JBool (b : bool)
| JNumber (lexeme : jsstring)
| JString (s : jsstring)
| JArray (items : list json)
| JObject (members : list (jsstring * json)).

Definition QUOTE : N := 34.
Definition BACKSLASH : N := 92.

Definition json_ws (c : N) : bool :=
  (c =? 32) || (c =? 9) || (c =? 10) || (c =? 13).

Fixpoint skip_ws (s : jsstring) : jsstring :=
  match s with
  | [] => []
  | c :: r => if json_ws c then skip_ws r else s
  end.

Definition hex_value (c : N) : option N :=
  if is_digit c then Some (c - 48)
  else if (97 <=? c) && (c <=? 102) then Some (c - 87)
  else if (65 <=? c) && (c <=? 70) then Some (c - 55)
  else None.

Definition hex4 (a b c d : N) : option N :=
  match hex_value a, hex_value b, hex_value c, hex_value d with
  | Some x, Some y, Some z, Some t => Some (((x * 16 + y) * 16 + z) * 16 + t)
  | _, _, _, _ => None
  end.

(** The code unit an escape letter stands for. *)
Definition escape_value (e : N) : option N :=
  if e =? 34 then Some 34
  else if e =? 92 then Some 92
  else if e =? 47 then Some 47
  else if e =? 98 then Some 8
  else if e =? 102 then Some 12
  else if e =? 110 then Some 10
  else if e =? 114 then Some 13
  else if e =? 116 then Some 9
  else None.

(** A string after its opening quote: its value and what follows the closing
    quote. *)
Fixpoint parse_string_body (s : jsstring) : option (jsstring * jsstring) :=
  match s with
  | [] => None
  | c :: r =>
      if c =? QUOTE then Some ([], r)
      else if c =? BACKSLASH then
        match r with
        | [] => None
        | e :: r1 =>
            if e =? 117 then
              match r1 with
              | h1 :: h2 :: h3 :: h4 :: r2 =>
                  match hex4 h1 h2 h3 h4, parse_string_body r2 with
                  | Some u, Some (v, rest) => Some (u :: v, rest)
                  | _, _ => None
                  end
              | _ => None
              end
            else
              match escape_value e, parse_string_body r1 with
              | Some u, Some (v, rest) => Some (u :: v, rest)
              | _, _ => None
              end
        end
      else if c <? 32 then None
      else
        match parse_string_body r with
        | Some (v, rest) => Some (c :: v, rest)
        | None => None
        end
  end.

Fixpoint span_digits (s : jsstring) : jsstring * jsstring :=
  match s with
  | [] => ([], [])
  | c :: r =>
      if is_digit c then let (ds, rest) := span_digits r in (c :: ds, rest)
      else ([], s)
  end.

(** A number: an optional minus sign; a zero, or a digit from one to nine
    and then any digits; optionally a point and one digit or more; optionally
    an exponent letter, a sign and one digit or more.  Each part gives its
    lexeme and what follows it. *)
Definition number_sign (s : jsstring) : jsstring * jsstring :=
  match s with
  | c :: r => if c =? 45 then ([c], r) else ([], s)
  | [] => ([], s)
  end.

Definition number_int (s : jsstring) : option (jsstring * jsstring) :=
  match s with
  | c :: r =>
      if c =? 48 then Some ([c], r)
      else if is_digit c then Some (span_digits s)
      else None
  | [] => None
  end.

Definition number_frac (s : jsstring) : option (jsstring * jsstring) :=
  match s with
  | c :: r =>
      if c =? 46 then
        match span_digits r with
        | ([], _) => None
        | (ds, rest) => Some (c :: ds, rest)
        end
      else Some ([], s)
  | [] => Some ([], s)
  end.

Definition number_exp (s : jsstring) : option (jsstring * jsstring) :=
  match s with
  | c :: r =>
      if (c =? 101) || (c =? 69) then
        let (esign, r1) :=
          match r with
          | d :: r' => if (d =? 43) || (d =? 45) then ([d], r') else ([], r)
          | [] => ([], r)
          end in
        match span_digits r1 with
        | ([], _) => None
        | (ds, rest) => Some (c :: esign ++ ds, rest)
        end
      else Some ([], s)
  | [] => Some ([], s)
  end.

Definition parse_number (s : jsstring) : option (jsstring * jsstring) :=
  let (sign, s1) := number_sign s in
  match number_int s1 with
  | None => None
  | Some (int_digits, s2) =>
      match number_frac s2 with
      | None => None
      | Some (frac, s3) =>
          match number_exp s3 with
          | None => None
          | Some (ex, s4) => Some (sign ++ int_digits ++ frac ++ ex, s4)
          end
      end
  end.

(** [s] starts with [lit]: what follows it. *)
Fixpoint strip_prefix (lit s : jsstring) : option jsstring :=
  match lit, s with
  | [], _ => Some s
  | a :: lit', b :: s' => if a =? b then strip_prefix lit' s' else None
  | _ :: _, [] => None
  end.

Fixpoint parse_value (fuel : nat) (s : jsstring) : option (json * jsstring) :=
  match fuel with
  | O => None
  | S fuel =>
      match skip_ws s with
      | [] => None
      | c :: r =>
          if c =? QUOTE then
            match parse_string_body r with
            | Some (v, rest) => Some (JString v, rest)
            | None => None
            end
          else if c =? 91 then
            match skip_ws r with
            | c' :: r' =>
                if c' =? 93 then Some (JArray [], r')
                else
                  match parse_elements fuel r with
                  | Some (vs, rest) => Some (JArray vs, rest)
                  | None => None
                  end
            | [] => None
            end
          else if c =? 123 then
            match skip_ws r with
            | c' :: r' =>
                if c' =? 125 then Some (JObject [], r')
                else
                  match parse_members fuel r with
                  | Some (ms, rest) => Some (JObject ms, rest)
                  | None => None
                  end
            | [] => None
            end
          else if c =? 116 then
            match strip_prefix (js "true") (c :: r) with
            | Some rest => Some (JBool true, rest)
            | None => None
            end
          else if c =? 102 then
            match strip_prefix (js "false") (c :: r) with
            | Some rest => Some (JBool false, rest)
            | None => None
            end
          else if c =? 110 then
            match strip_prefix (js "null") (c :: r) with
            | Some rest => Some (JNull, rest)
            | None => None
            end
          else
            match parse_number (c :: r) with
            | Some (lexeme, rest) => Some (JNumber lexeme, rest)
            | None => None
            end
      end
  end
with parse_elements (fuel : nat) (s : jsstring)
  : option (list json * jsstring) :=
  match fuel with
  | O => None
  | S fuel =>
      match parse_value fuel s with
      | None => None
      | Some (v, r) =>
          match skip_ws r with
          | c :: r' =>
              if c =? 44 then
                match parse_elements fuel r' with
                | Some (vs, rest) => Some (v :: vs, rest)
                | None => None
                end
              else if c =? 93 then Some ([v], r')
              else None
          | [] => None
          end
      end
  end
with parse_members (fuel : nat) (s : jsstring)
  : option (list (jsstring * json) * jsstring) :=
  match fuel with
  | O => None
  | S fuel =>
      match skip_ws s with
      | q :: r0 =>
          if q =? QUOTE then
            match parse_string_body r0 with
            | None => None
            | Some (k, r1) =>
                match skip_ws r1 with
                | colon :: r2 =>
                    if colon =? 58 then
                      match parse_value fuel r2 with
                      | None => None
                      | Some (v, r3) =>
                          match skip_ws r3 with
                          | c :: r4 =>
                              if c =? 44 then
                                match parse_members fuel r4 with
                                | Some (ms, rest) => Some ((k, v) :: ms, rest)
                                | None => None
                                end
                              else if c =? 125 then Some ([(k, v)], r4)
                              else None
                          | [] => None
                          end
                      end
                    else None
                | [] => None
                end
            end
          else None
      | [] => None
      end
  end.

Definition SyntaxError : thrown := ErrorObj (js "Unexpected token in JSON").

(** [JSON.parse(text)]: one value, white space around it, nothing else.  The
    fuel bounds the depth of the descent, which never exceeds twice the length
    of the text. *)
Definition JSON_parse (text : jsstring) : completion json :=
  match parse_value (2 * length text + 2) text with
  | Some (v, rest) =>
      match skip_ws rest with
      | [] => Normal v
      | _ :: _ => Abrupt SyntaxError
      end
  | None => Abrupt SyntaxError
  end.

(** [o[name]] for a parsed object: the last member of that name. *)
Fixpoint get_member (name : jsstring) (members : list (jsstring * json))
  : option json :=
  match members with
  | [] => None
  | (k, v) :: rest =>
      match get_member name rest with
      | Some v' => Some v'
      | None => if decide (k = name) then Some v else None
      end
  end.

Definition is_string_member (name : jsstring)
  (members : list (jsstring * json)) : bool :=
  match get_member name members with
  | Some (JString _) => true
  | _ => false
  end.

(** [translationSchema]: an array of objects with the required string
    properties [arabic] and [english]. *)
Definition conforms_item (v : json) : bool :=
  match v with
  | JObject members =>
      is_string_member (js "arabic") members
      && is_string_member (js "english") members
  | _ => false
  end.

Definition conforms_schema (v : json) : bool :=
  match v with
  | JArray items => forallb conforms_item items
  | _ => false
  end.

(** ** [src/services/geminiService.ts]: [translateAndAlignText]

    [src/unnamed/part_001] is an earlier copy with another model name, a
    shorter instruction text and no thinking configuration; the rest of its
    [try] block is the same. *)

Definition PROMPT_HEAD : jsstring := js "
    You are an expert translator specializing in Arabic to English.
    Your task is to take the provided Arabic text, translate it accurately into English, and segment the output based on the paragraph structure of the original text.
    Treat any block of text separated by one or more empty lines as a distinct paragraph or segment.
    The first segment should represent the title or the very first line of the source text.
    For each segment you identify, create a corresponding translation.
    
    CRITICAL FORMATTING RULE: If a segment (a row) contains internal single line breaks that are NOT empty lines, you MUST preserve these line breaks by using the newline character (\n) in your JSON string output for both 'arabic' and 'english' fields.
    
    BIBLE REFERENCE RULE: If the text contains Bible references or is from the Bible, ensure the English translation aligns with a well-known version like the New King James Version (NKJV). 
    MANDATORY: You must use the full, unabbreviated name of every Bible book in every reference (e.g., '1 Corinthians' instead of '1 Cor.', 'Philippians' instead of 'Phil.', 'John' instead of 'Jn.', 'Psalms' instead of 'Ps.'). This is a strict requirement.
    
    The final output must be a valid JSON array of objects.
    
    Here is the Arabic text:
    ---
    ".

Definition PROMPT_TAIL : jsstring := js "
    ---
  ".

(** A schema in the vocabulary of the service's [Type]. *)
Inductive Schema :=
| SchemaString (description : jsstring)
| SchemaObject (properties : list (jsstring * Schema))
    (required : list jsstring)
| SchemaArray (items : Schema).

Definition translationSchema : Schema :=
  SchemaArray
    (SchemaObject
       [(js "arabic",
         SchemaString (js "The original Arabic sentence or phrase."));
        (js "english",
         SchemaString (js "The corresponding English translation."))]
       [js "arabic"; js "english"]).

(** The [config] of a call; [thinkingConfig] is the [thinkingBudget] of the
    call when it sends one. *)
Record GenerateContentConfig := {
  responseMimeType : jsstring;
  responseSchema : Schema;
  thinkingConfig : option N
}.

(** What is sent: the model name, the prompt and the configuration. *)
Record GenerateContentRequest := {
  model : jsstring;
  contents : jsstring;
  config : GenerateContentConfig
}.

(** What [await ai.models.generateContent(...)] does: it throws, or it gives
    a response whose [text] may be [undefined]. *)
Inductive GenerateContentResult :=
| ServiceFails (e : thrown)
| ServiceResponds (response_text : option jsstring).

Definition Service : Type := GenerateContentRequest -> GenerateContentResult.

Definition generateContent (ai : Service) (req : GenerateContentRequest)
  : M (option jsstring) :=
  match ai req with
  | ServiceFails e => throw e
  | ServiceResponds t => ret t
  end.

(** [JSON.parse(jsonString)] as a statement; [undefined] is converted to the
    string of its name first. *)
Definition call_JSON_parse (jsonString : option jsstring) : M json :=
  match JSON_parse (default (js "undefined") jsonString) with
  | Normal v => ret v
  | Abrupt e => throw e
  end.

Definition API_ERROR : jsstring := js "Error calling Gemini API:".
Definition TRANSLATION_FAILED : jsstring :=
  js "Failed to translate and align text. The model may have returned an invalid response.".

Definition translateAndAlignText (ai : Service) (text : jsstring) : M json :=
  let prompt := PROMPT_HEAD ++ text ++ PROMPT_TAIL in
  r <- try (jsonString <- generateContent ai
                            {| model := js "gemini-3-flash-preview";
                               contents := prompt;
                               config :=
                                 {| responseMimeType := js "application/json";
                                    responseSchema := translationSchema;
                                    thinkingConfig := Some 0 |} |} ;;
            result <- call_JSON_parse jsonString ;;
            ret result) ;;
  match r with
  | Normal result => ret result
  | Abrupt error =>
      console_error API_ERROR (Some error) ;;
      throw (ErrorObj TRANSLATION_FAILED)
  end.

(** ** [src/unnamed/part_001]: the earlier copy of the adapter *)

Module Part001.

Definition PROMPT_HEAD : jsstring := js "
    You are an expert translator specializing in Arabic to English.
    Your task is to take the provided Arabic text, translate it accurately into English, and segment the output based on the paragraph structure of the original text.
    Treat any block of text separated by one or more empty lines as a distinct paragraph or segment.
    The first segment should represent the title or the very first line of the source text.
    For each segment you identify, create a corresponding translation.
    If the text appears to be from a religious text like the Bible, please ensure the English translation aligns with a well-known version like the New King James Version (NKJV) where appropriate.
    The final output must be a valid JSON array of objects, where each object represents a pair of corresponding segments (the original Arabic segment and its English translation).
    
    Here is the Arabic text:
    ---
    ".

Definition translateAndAlignText (ai : Service) (text : jsstring) : M json :=
  let prompt := PROMPT_HEAD ++ text ++ PROMPT_TAIL in
  r <- try (jsonString <- generateContent ai
                            {| model := js "gemini-2.5-flash";
                               contents := prompt;
                               config :=
                                 {| responseMimeType := js "application/json";
                                    responseSchema := translationSchema;
                                    thinkingConfig := None |} |} ;;
            result <- call_JSON_parse jsonString ;;
            ret result) ;;
  match r with
  | Normal result => ret result
  | Abrupt error =>
      console_error API_ERROR (Some error) ;;
      throw (ErrorObj TRANSLATION_FAILED)
  end.

(** The request the earlier copy sends for a text. *)
Definition request_of (text : jsstring) : GenerateContentRequest :=
  {| model := js "gemini-2.5-flash";
     contents := PROMPT_HEAD ++ text ++ PROMPT_TAIL;
     config := {| responseMimeType := js "application/json";
                  responseSchema := translationSchema;
                  thinkingConfig := None |} |}.

End Part001.

(** ** [src/App.tsx]: the component state and its two handlers *)

Record AppState := {
  arabicText : jsstring;
  translationPairs : loc;
  isLoading : bool;
  error : option jsstring;
  isExporting : bool;
  (** the delays of the pending [setTimeout(() => setIsExporting(false), ms)] *)
  timeouts : list N
}.

Definition setError (e : option jsstring) (st : AppState) : AppState :=
  {| arabicText := arabicText st; translationPairs := translationPairs st;
     isLoading := isLoading st; error := e; isExporting := isExporting st;
     timeouts := timeouts st |}.

Definition setIsLoading (b : bool) (st : AppState) : AppState :=
  {| arabicText := arabicText st; translationPairs := translationPairs st;
     isLoading := b; error := error st; isExporting := isExporting st;
     timeouts := timeouts st |}.

Definition setTranslationPairs (r : loc) (st : AppState) : AppState :=
  {| arabicText := arabicText st; translationPairs := r;
     isLoading := isLoading st; error := error st;
     isExporting := isExporting st; timeouts := timeouts st |}.

Definition setIsExporting (b : bool) (st : AppState) : AppState :=
  {| arabicText := arabicText st; translationPairs := translationPairs st;
     isLoading := isLoading st; error := error st; isExporting := b;
     timeouts := timeouts st |}.

Definition setTimeout (ms : N) (st : AppState) : AppState :=
  {| arabicText := arabicText st; translationPairs := translationPairs st;
     isLoading := isLoading st; error := error st;
     isExporting := isExporting st; timeouts := timeouts st ++ [ms] |}.

(** The timers run: each pending one calls [setIsExporting(false)]. *)
Definition fire_timeouts (st : AppState) : AppState :=
  match timeouts st with
  | [] => st
  | _ :: _ =>
      {| arabicText := arabicText st; translationPairs := translationPairs st;
         isLoading := isLoading st; error := error st; isExporting := false;
         timeouts := [] |}
  end.

(** [err instanceof Error ? err.message : otherwise] *)
Definition message_or (otherwise : jsstring) (err : thrown) : jsstring :=
  match err with
  | ErrorObj m => m
  | NotAnError _ => otherwise
  end.

Definition EMPTY_INPUT : jsstring :=
  js "Please enter some Arabic text to translate.".
Definition UNKNOWN_ERROR : jsstring := js "An unknown error occurred.".
Definition NOTHING_TO_EXPORT : jsstring := js "There is nothing to export.".
Definition UNKNOWN_EXPORT_ERROR : jsstring :=
  js "An unknown error occurred during export.".

(** [handleTranslate] up to its [await]: the new state, and the text
    [translateAndAlignText] is called with ([None]: it is not called). *)
Definition handleTranslate_start (st : AppState)
  : M (AppState * option jsstring) :=
  if falsy (trim (arabicText st)) then
    ret (setError (Some EMPTY_INPUT) st, None)
  else
    empty <- array_literal [] ;;
    ret (setTranslationPairs empty (setError None (setIsLoading true st)),
         Some (arabicText st)).

(** [handleTranslate] from its [await] on: [outcome] is how the adapter's
    promise settled, the array it resolved to being in the store. *)
Definition handleTranslate_resume (st : AppState) (outcome : completion loc)
  : AppState :=
  setIsLoading false
    match outcome with
    | Normal result => setTranslationPairs result st
    | Abrupt err => setError (Some (message_or UNKNOWN_ERROR err)) st
    end.

Section HandleExport.
Context `{CaseConversion} (lib : Libraries).

(** [handleExport]: the new state, and the promise [exportToWord] left
    pending, if any. *)
Definition handleExport (st : AppState) : M (AppState * option Pending) :=
  len <- array_length (translationPairs st) ;;
  if Nat.eqb len 0 then ret (setError (Some NOTHING_TO_EXPORT) st, None)
  else
    let st := setError None (setIsExporting true st) in
    r <- try (PdfService.exportToWord lib (Some (translationPairs st))) ;;
    match r with
    | Normal p => ret (setTimeout 800 st, p)
    | Abrupt err =>
        ret (setTimeout 800
               (setError (Some (message_or UNKNOWN_EXPORT_ERROR err)) st),
             None)
    end.

(** The handler, then the reactions to the promise, then the timer. *)
Definition handleExport_settled (st : AppState) : M AppState :=
  r <- handleExport st ;;
  let (st', p) := (r : AppState * option Pending) in
  match p with
  | Some p => exportToWord_reactions lib p
  | None => ret tt
  end ;;
  ret (fire_timeouts st').

End HandleExport.

(** ** [src/App.tsx]: what the component shows

    The component function and its two helper components, as the description
    of the page they return: which parts are there, what text they hold and
    which controls are disabled.  Markup, class names and icons are left
    out; every condition and every text that comes from the state is kept. *)

(** The messages [Loader] cycles through. *)
Definition Loader_messages : list jsstring :=
  [js "Analyzing Arabic text structure...";
   js "Translating with high precision...";
   js "Aligning segments for side-by-side view...";
   js "Polishing the output...";
   js "Almost there..."].

(** The update of [msgIndex] every 1500 ms. *)
Definition Loader_tick (prev : nat) : nat :=
  (prev + 1) mod length Loader_messages.

(** The text [Loader] shows: [messages[msgIndex]], which is [undefined] past
    the end. *)
Definition Loader (msgIndex : nat) : option jsstring :=
  Loader_messages !! msgIndex.

(** One row of [TranslationTable]: the two cells; the key of a row is its
    index. *)
Record RowView := {
  cell_arabic : jsstring;
  cell_english : jsstring
}.

Definition TranslationTable (data : loc) : M (list RowView) :=
  es <- array_elems data ;;
  mapM (fun pair =>
          a <- get_arabic (Some pair) ;;
          e <- get_english (Some pair) ;;
          ret {| cell_arabic := a; cell_english := e |})
       es.

Inductive TranslateLabel := Processing | TranslateAndAlign.
Inductive ExportLabel := CreatingDocument | ExportToWordDocx.

(** The block shown after a translation. *)
Record ResultsView := {
  heading : option (jsstring * jsstring);
  table : option (list RowView);
  export_disabled : bool;
  export_label : ExportLabel
}.

Record View := {
  textarea_value : jsstring;
  textarea_disabled : bool;
  translate_disabled : bool;
  translate_label : TranslateLabel;
  loader_shown : bool;
  alert : option jsstring;
  results : option ResultsView
}.

(** [{error && ...}]: neither [null] nor the empty string is shown. *)
Definition alert_of (error : option jsstring) : option jsstring :=
  match error with
  | Some e => if falsy e then None else Some e
  | None => None
  end.

(** The body of the component [App] after its handlers.  The elements of a
    [TranslationPair[]] are objects, so [titlePair && ...] depends on whether
    there is a first element. *)
Definition App (st : AppState) : M View :=
  len <- array_length (translationPairs st) ;;
  titlePair <- (if Nat.ltb 0 len then array_get (translationPairs st) 0
                else ret None) ;;
  tableData <- (if Nat.ltb 1 len then array_slice (translationPairs st) 1
                else array_literal []) ;;
  shown <-
    (if Nat.ltb 0 len && negb (isLoading st) then
       h <- match titlePair with
            | Some _ =>
                a <- get_arabic titlePair ;;
                e <- get_english titlePair ;;
                ret (Some (a, e))
            | None => ret None
            end ;;
       tableLen <- array_length tableData ;;
       t <- (if Nat.ltb 0 tableLen then
               rows <- TranslationTable tableData ;; ret (Some rows)
             else ret None) ;;
       ret (Some {| heading := h; table := t;
                    export_disabled := isExporting st;
                    export_label := if isExporting st then CreatingDocument
                                    else ExportToWordDocx |})
     else ret None) ;;
  ret {| textarea_value := arabicText st;
         textarea_disabled := isLoading st;
         translate_disabled := isLoading st || falsy (trim (arabicText st));
         translate_label := if isLoading st then Processing
                            else TranslateAndAlign;
         loader_shown := isLoading st;
         alert := alert_of (error st);
         results := shown |}.

(** * Properties *)

(** ** Lists of code units *)

Ltac n_cases :=
  repeat match goal with
         | |- context [?a <=? ?b] => destruct (N.leb_spec a b)
         | |- context [?a <? ?b] => destruct (N.ltb_spec a b)
         | |- context [?a =? ?b] => destruct (N.eqb_spec a b)
         end;
  simpl in *; try lia; try congruence; try tauto.

Lemma split_nonempty sep s : split sep s <> [].
Proof.
  destruct s as [|c r]; simpl; [discriminate|].
  destruct (c =? sep); [discriminate|].
  destruct (split sep r); discriminate.
Qed.

Lemma split_no_sep sep s : Forall (fun w => sep ∉ w) (split sep s).
Proof.
  induction s as [|c r IH]; simpl.
  - repeat constructor. apply not_elem_of_nil.
  - destruct (N.eqb_spec c sep) as [->|Hne].
    + constructor; [apply not_elem_of_nil | exact IH].
    + destruct (split sep r) as [|w ws]; inversion IH; subst.
      * repeat constructor. rewrite elem_of_cons. intros [E|E]; [congruence|].
        by apply not_elem_of_nil in E.
      * constructor; [|assumption].
        rewrite elem_of_cons. intros [E|E]; [congruence|contradiction].
Qed.

Lemma join_cons2 sep w w' ws :
  join sep (w :: w' :: ws) = w ++ sep ++ join sep (w' :: ws).
Proof. reflexivity. Qed.

Lemma join_split sep s : join [sep] (split sep s) = s.
Proof.
  induction s as [|c r IH]; simpl; [reflexivity|].
  destruct (N.eqb_spec c sep) as [->|Hne].
  - pose proof (split_nonempty sep r) as Hn.
    destruct (split sep r) as [|w ws]; [congruence|].
    simpl in *. by rewrite IH.
  - pose proof (split_nonempty sep r) as Hn.
    destruct (split sep r) as [|w ws]; [congruence|].
    destruct ws as [|w' ws]; simpl in *; by rewrite <- IH.
Qed.

Lemma split_app_no_sep sep (a b : jsstring) :
  sep ∉ a ->
  split sep (a ++ sep :: b) = a :: split sep b.
Proof.
  induction a as [|c a IH]; simpl; intros Hn.
  - by rewrite N.eqb_refl.
  - apply not_elem_of_cons in Hn as [Hc Ha].
    destruct (N.eqb_spec c sep) as [E|_]; [congruence|].
    by rewrite IH.
Qed.

Lemma split_single sep (a : jsstring) : sep ∉ a -> split sep a = [a].
Proof.
  induction a as [|c a IH]; simpl; intros Hn; [reflexivity|].
  apply not_elem_of_cons in Hn as [Hc Ha].
  destruct (N.eqb_spec c sep) as [E|_]; [congruence|].
  by rewrite IH.
Qed.

Lemma split_join sep ws :
  ws <> [] -> Forall (fun w => sep ∉ w) ws -> split sep (join [sep] ws) = ws.
Proof.
  induction ws as [|w ws IH]; [congruence|].
  intros _ Hall. inversion Hall as [|? ? Hw Hws]; subst.
  destruct ws as [|w' ws].
  - simpl. by apply split_single.
  - rewrite join_cons2. simpl app.
    rewrite split_app_no_sep by assumption.
    f_equal. apply IH; [discriminate | assumption].
Qed.

Lemma forallb_app_true {A} (f : A -> bool) l1 l2 :
  forallb f l1 = true -> forallb f l2 = true -> forallb f (l1 ++ l2) = true.
Proof. intros H1 H2. rewrite forallb_app, H1, H2. reflexivity. Qed.

(** ** The filename *)

(** The characters the specification allows in a file name. *)
Definition allowed_char (c : N) : bool :=
  is_letter c || is_digit c || (c =? SP) || (c =? HYPHEN).

(** A name character that is no white space. *)
Definition name_char (c : N) : bool :=
  is_letter c || is_digit c || (c =? HYPHEN).

Lemma trimStart_forallb f s :
  forallb f s = true -> forallb f (trimStart s) = true.
Proof.
  induction s as [|c r IH]; simpl; [reflexivity|].
  intros Hs. destruct (is_ws c); [|exact Hs].
  apply andb_true_iff in Hs as [_ Hr]. by apply IH.
Qed.

Lemma forallb_rev {A} (f : A -> bool) l : forallb f (rev l) = forallb f l.
Proof.
  induction l as [|a l IH]; simpl; [reflexivity|].
  rewrite forallb_app, IH. simpl. rewrite andb_true_r. apply andb_comm.
Qed.

Lemma trim_forallb f s : forallb f s = true -> forallb f (trim s) = true.
Proof.
  intros Hs. unfold trim, trimEnd.
  rewrite forallb_rev. apply trimStart_forallb.
  rewrite forallb_rev. by apply trimStart_forallb.
Qed.

Lemma trimStart_all_ws s : forallb is_ws s = true -> trimStart s = [].
Proof.
  induction s as [|c r IH]; simpl; [reflexivity|].
  intros Hs. apply andb_true_iff in Hs as [Hc Hr]. rewrite Hc. by apply IH.
Qed.

Lemma replace_ws_runs_allowed b s :
  forallb filename_char s = true ->
  forallb allowed_char (replace_ws_runs b s) = true.
Proof.
  revert b. induction s as [|c r IH]; intros b; simpl; [reflexivity|].
  intros Hs. apply andb_true_iff in Hs as [Hc Hr].
  destruct (is_ws c) eqn:Hws.
  - destruct b; simpl; auto.
  - simpl. rewrite IH by assumption. rewrite andb_true_r.
    unfold filename_char in Hc. unfold allowed_char.
    rewrite Hws in Hc.
    destruct (is_letter c), (is_digit c), (c =? HYPHEN), (c =? SP);
      simpl in *; congruence.
Qed.

Lemma take_forallb {A} (f : A -> bool) n l :
  forallb f l = true -> forallb f (take n l) = true.
Proof.
  revert n. induction l as [|a l IH]; intros [|n]; simpl; auto.
  intros Hs. apply andb_true_iff in Hs as [Ha Hl]. rewrite Ha. by apply IH.
Qed.

Lemma filter_filename_char name :
  forallb filename_char (List.filter filename_char name) = true.
Proof.
  induction name as [|c r IH]; simpl; [reflexivity|].
  destruct (filename_char c) eqn:Hc; simpl; [rewrite Hc|]; exact IH.
Qed.

Lemma filter_only_ws name :
  forallb (fun c => negb (name_char c)) name = true ->
  forallb is_ws (List.filter filename_char name) = true.
Proof.
  induction name as [|c r IH]; simpl; [reflexivity|].
  intros Hs. apply andb_true_iff in Hs as [Hc Hr].
  destruct (filename_char c) eqn:Hf; simpl; [|by apply IH].
  rewrite IH by assumption. rewrite andb_true_r.
  unfold filename_char in Hf. unfold name_char in Hc.
  destruct (is_letter c), (is_digit c), (c =? HYPHEN), (is_ws c);
    simpl in *; congruence.
Qed.

(** C6. For every input the sanitized file name holds only letters, digits,
    spaces and hyphens and is at most 50 code units long; an input with no
    letter, digit or hyphen in it (the empty one, one of white space only, one
    of special characters only) gives the fallback name. *)
Theorem sanitizeFilename_spec (name : jsstring) :
  forallb allowed_char (sanitizeFilename name) = true
  /\ (length (sanitizeFilename name) <= 50)%nat
  /\ (forallb (fun c => negb (name_char c)) name = true ->
      sanitizeFilename name = FALLBACK_NAME).
Proof.
  unfold sanitizeFilename, slice0.
  set (cleaned := take 50 _).
  assert (Hall : forallb allowed_char cleaned = true).
  { apply take_forallb, replace_ws_runs_allowed, trim_forallb,
      filter_filename_char. }
  assert (Hlen : (length cleaned <= 50)%nat).
  { subst cleaned. rewrite length_take. lia. }
  split; [|split].
  - destruct (falsy cleaned); [reflexivity | exact Hall].
  - destruct (falsy cleaned); [vm_compute; lia | exact Hlen].
  - intros Hnone. subst cleaned. unfold trim.
    rewrite (trimStart_all_ws _ (filter_only_ws _ Hnone)). reflexivity.
Qed.

(** ** Title case *)

Section TitleCaseFacts.
Context `{CaseConversion}.

Lemma toUpperCase_nil : toUpperCase [] = [].
Proof. by rewrite toUpperCase_ascii. Qed.

Lemma toLowerCase_nil : toLowerCase [] = [].
Proof. by rewrite toLowerCase_ascii. Qed.

Lemma capitalize_nil : capitalize [] = [].
Proof. unfold capitalize. simpl. by rewrite toUpperCase_nil. Qed.

(** What follows the first word in the joined result. *)
Definition joined_tail (ws : list jsstring) : jsstring :=
  match ws with
  | [] => []
  | _ :: _ => SP :: join [SP] (map capitalize ws)
  end.

Lemma join_capitalize w ws :
  join [SP] (map capitalize (w :: ws)) = capitalize w ++ joined_tail ws.
Proof. destruct ws; simpl; [by rewrite app_nil_r | reflexivity]. Qed.

Lemma title_scan_split b l :
  title_scan b l =
  match split SP l with
  | w :: ws => (if b then capitalize w else w) ++ joined_tail ws
  | [] => []
  end.
Proof.
  revert b. induction l as [|c r IH]; intros b.
  - simpl. destruct b; [by rewrite capitalize_nil | reflexivity].
  - simpl. destruct (N.eqb_spec c SP) as [->|Hne].
    + rewrite (IH true).
      pose proof (split_nonempty SP r) as Hn.
      destruct (split SP r) as [|w ws]; [congruence|].
      unfold joined_tail at 2. rewrite join_capitalize.
      destruct b; [by rewrite capitalize_nil | reflexivity].
    + rewrite (IH false).
      pose proof (split_nonempty SP r) as Hn.
      destruct (split SP r) as [|w ws]; [congruence|].
      destruct b; [|reflexivity].
      unfold capitalize. simpl. unfold slice1. simpl.
      by rewrite <- app_assoc.
Qed.

(** The source's split, map and join is the scan of the lower-cased text. *)
Lemma toTitleCase_scan str : toTitleCase str = titleCaseSpec str.
Proof.
  unfold toTitleCase, titleCaseSpec.
  destruct str as [|c r]; simpl falsy; cbv iota.
  - by rewrite toLowerCase_nil.
  - rewrite title_scan_split.
    pose proof (split_nonempty SP (toLowerCase (c :: r))) as Hn.
    destruct (split SP (toLowerCase (c :: r))) as [|w ws]; [congruence|].
    apply join_capitalize.
Qed.

Lemma toLowerCase_join ws :
  toLowerCase (join [SP] ws) = join [SP] (map toLowerCase ws).
Proof.
  induction ws as [|w ws IH]; [apply toLowerCase_nil|].
  destruct ws as [|w' ws]; [reflexivity|].
  rewrite join_cons2.
  change (w ++ [SP] ++ join [SP] (w' :: ws))
    with (w ++ SP :: join [SP] (w' :: ws)).
  rewrite toLowerCase_words, IH. reflexivity.
Qed.

(** Lower-casing keeps the words where they are. *)
Lemma split_toLowerCase s :
  split SP (toLowerCase s) = map toLowerCase (split SP s).
Proof.
  rewrite <- (join_split SP s) at 1. rewrite toLowerCase_join.
  apply split_join.
  - pose proof (split_nonempty SP s). by destruct (split SP s).
  - apply Forall_map. eapply Forall_impl; [apply split_no_sep|].
    intros w Hw. by apply toLowerCase_no_space.
Qed.

Lemma capitalize_no_space w : SP ∉ w -> SP ∉ capitalize w.
Proof.
  intros Hw. unfold capitalize. destruct w as [|c r]; simpl.
  - rewrite toUpperCase_nil. apply not_elem_of_nil.
  - apply not_elem_of_cons in Hw as [Hc Hr].
    rewrite elem_of_app. intros [E|E].
    + by apply (toUpperCase_no_space c).
    + unfold slice1 in E. simpl in E. contradiction.
Qed.

Lemma split_toTitleCase s :
  split SP (toTitleCase s) = map capitalize (map toLowerCase (split SP s)).
Proof.
  unfold toTitleCase. destruct s as [|c r]; simpl falsy; cbv iota.
  - simpl. by rewrite toLowerCase_nil, capitalize_nil.
  - rewrite split_toLowerCase. apply split_join.
    + pose proof (split_nonempty SP (c :: r)).
      by destruct (split SP (c :: r)).
    + apply Forall_map, Forall_map.
      eapply Forall_impl; [apply split_no_sep|].
      intros w Hw. by apply capitalize_no_space, toLowerCase_no_space.
Qed.

(** C10. [toTitleCase] maps the empty string to itself; its result is the
    lower-cased input in which the first code unit of every word is
    upper-cased and nothing else is touched, a word ending at a space and
    nowhere else (so a letter after a tab or a line feed stays in lower case);
    and the result has the words of the input at the same places: as many
    spaces, consecutive ones included. *)
Theorem toTitleCase_words (s : jsstring) :
  toTitleCase [] = []
  /\ toTitleCase s = titleCaseSpec s
  /\ split SP (toTitleCase s)
     = map capitalize (map toLowerCase (split SP s))
  /\ length (split SP (toTitleCase s)) = length (split SP s).
Proof.
  split; [reflexivity|]. split; [apply toTitleCase_scan|].
  split; [apply split_toTitleCase|].
  rewrite split_toTitleCase. by rewrite !length_map.
Qed.

(** *** ASCII strings *)

(** The scan over ASCII text: the flag says that a word starts here. *)
Fixpoint ascii_scan (word_start : bool) (s : jsstring) : jsstring :=
  match s with
  | [] => []
  | c :: r =>
      if c =? SP then SP :: ascii_scan true r
      else (if word_start then ascii_upper (ascii_lower c) else ascii_lower c)
             :: ascii_scan false r
  end.

Lemma ascii_lower_ascii c : is_ascii c = true -> is_ascii (ascii_lower c) = true.
Proof. unfold is_ascii, ascii_lower, is_upper_az. n_cases. Qed.

Lemma ascii_upper_ascii c : is_ascii c = true -> is_ascii (ascii_upper c) = true.
Proof. unfold is_ascii, ascii_upper, is_lower_az. n_cases. Qed.

Lemma ascii_lower_space c : (ascii_lower c =? SP) = (c =? SP).
Proof. unfold ascii_lower, is_upper_az, SP. n_cases. Qed.

Lemma title_scan_ascii b s :
  forallb is_ascii s = true ->
  title_scan b (map ascii_lower s) = ascii_scan b s.
Proof.
  revert b. induction s as [|c r IH]; intros b Hs; simpl; [reflexivity|].
  apply andb_true_iff in Hs as [Hc Hr].
  rewrite ascii_lower_space.
  destruct (c =? SP); [by rewrite IH|].
  rewrite IH by assumption.
  destruct b; [|reflexivity].
  rewrite toUpperCase_ascii; [reflexivity|].
  simpl. by rewrite ascii_lower_ascii.
Qed.

Lemma toTitleCase_ascii s :
  forallb is_ascii s = true -> toTitleCase s = ascii_scan true s.
Proof.
  intros Hs. rewrite toTitleCase_scan. unfold titleCaseSpec.
  rewrite toLowerCase_ascii by assumption. by apply title_scan_ascii.
Qed.

Lemma ascii_scan_ascii b s :
  forallb is_ascii s = true -> forallb is_ascii (ascii_scan b s) = true.
Proof.
  revert b. induction s as [|c r IH]; intros b Hs; simpl; [reflexivity|].
  apply andb_true_iff in Hs as [Hc Hr].
  destruct (c =? SP); simpl; rewrite IH by assumption.
  - reflexivity.
  - rewrite andb_true_r.
    destruct b; [apply ascii_upper_ascii|]; by apply ascii_lower_ascii.
Qed.

Lemma ascii_scan_idempotent b s : ascii_scan b (ascii_scan b s) = ascii_scan b s.
Proof.
  revert b. induction s as [|c r IH]; intros b; simpl; [reflexivity|].
  destruct (N.eqb_spec c SP) as [->|Hne].
  - simpl. by rewrite IH.
  - simpl.
    assert (Hhead : forall d,
      d = (if b then ascii_upper (ascii_lower c) else ascii_lower c) ->
      (d =? SP) = false
      /\ (if b then ascii_upper (ascii_lower d) else ascii_lower d) = d).
    { intros d ->. unfold SP in *.
      destruct b; unfold ascii_upper, ascii_lower, is_upper_az, is_lower_az;
        n_cases. }
    destruct (Hhead _ eq_refl) as [-> ->]. by rewrite IH.
Qed.

Lemma toTitleCase_ascii_idempotent s :
  forallb is_ascii s = true ->
  toTitleCase (toTitleCase s) = toTitleCase s.
Proof.
  intros Hs. rewrite (toTitleCase_ascii s Hs).
  rewrite toTitleCase_ascii by (by apply ascii_scan_ascii).
  apply ascii_scan_idempotent.
Qed.

End TitleCaseFacts.

(** *** The Latin-1 conversions are case conversions *)

Lemma latin1_lower_ascii c :
  is_ascii c = true -> latin1_lower c = ascii_lower c.
Proof. unfold is_ascii, latin1_lower, ascii_lower, is_upper_az. n_cases. Qed.

Lemma latin1_upper_ascii c :
  is_ascii c = true -> latin1_upper c = [ascii_upper c].
Proof. unfold is_ascii, latin1_upper, ascii_upper, is_lower_az. n_cases. Qed.

Lemma latin1_toLowerCase_ascii s :
  forallb is_ascii s = true -> latin1_toLowerCase s = map ascii_lower s.
Proof.
  unfold latin1_toLowerCase. induction s as [|c r IH]; simpl; [reflexivity|].
  intros Hs. apply andb_true_iff in Hs as [Hc Hr].
  by rewrite latin1_lower_ascii, IH.
Qed.

Lemma latin1_toUpperCase_ascii s :
  forallb is_ascii s = true -> latin1_toUpperCase s = map ascii_upper s.
Proof.
  unfold latin1_toUpperCase. induction s as [|c r IH]; simpl; [reflexivity|].
  intros Hs. apply andb_true_iff in Hs as [Hc Hr].
  by rewrite latin1_upper_ascii, IH.
Qed.

Lemma latin1_toLowerCase_words a b :
  latin1_toLowerCase (a ++ SP :: b)
  = latin1_toLowerCase a ++ SP :: latin1_toLowerCase b.
Proof. unfold latin1_toLowerCase. by rewrite map_app. Qed.

Lemma latin1_lower_space c : latin1_lower c = SP -> c = SP.
Proof. unfold latin1_lower, is_upper_az, SP. n_cases. Qed.

Lemma latin1_toLowerCase_no_space a : SP ∉ a -> SP ∉ latin1_toLowerCase a.
Proof.
  unfold latin1_toLowerCase. intros Ha Hin.
  apply list_elem_of_fmap in Hin as (c & Hc & Hin).
  symmetry in Hc. apply latin1_lower_space in Hc. by subst.
Qed.

Lemma latin1_toUpperCase_no_space c : c <> SP -> SP ∉ latin1_toUpperCase [c].
Proof.
  intros Hc. unfold latin1_toUpperCase. simpl. rewrite app_nil_r.
  unfold latin1_upper, is_lower_az, SP in *.
  n_cases; rewrite ?elem_of_cons; intros Hin;
    repeat (destruct Hin as [Hin|Hin]; [lia|]);
    by apply not_elem_of_nil in Hin.
Qed.

Definition latin1_case : CaseConversion :=
  {| toLowerCase := latin1_toLowerCase;
     toUpperCase := latin1_toUpperCase;
     toLowerCase_ascii := latin1_toLowerCase_ascii;
     toUpperCase_ascii := latin1_toUpperCase_ascii;
     toLowerCase_words := latin1_toLowerCase_words;
     toLowerCase_no_space := latin1_toLowerCase_no_space;
     toUpperCase_no_space := latin1_toUpperCase_no_space |}.

(** The German sharp s, U+00DF. *)
Definition SHARP_S : jsstring := [223].

(** C8, as amended. Title-casing twice is title-casing once on every string
    whose title-cased form lower-cases to the same string as the string
    itself, and so on every string of ASCII characters.  It is not so on the
    sharp s: its title-cased form is SS, and the title-cased form of SS is
    Ss. *)
Theorem toTitleCase_idempotent_when_stable `{CaseConversion} :
  (forall s,
     toLowerCase (toTitleCase s) = toLowerCase s ->
     toTitleCase (toTitleCase s) = toTitleCase s)
  /\ (forall s,
        forallb is_ascii s = true ->
        toLowerCase (toTitleCase s) = toLowerCase s
        /\ toTitleCase (toTitleCase s) = toTitleCase s)
  /\ (@toTitleCase latin1_case SHARP_S = js "SS"
      /\ @toTitleCase latin1_case (js "SS") = js "Ss").
Proof.
  assert (Hstable : forall s,
    toLowerCase (toTitleCase s) = toLowerCase s ->
    toTitleCase (toTitleCase s) = toTitleCase s).
  { intros s Hlow. destruct s as [|c r]; [reflexivity|].
    destruct (toTitleCase (c :: r)) as [|c' r'] eqn:Ht; [reflexivity|].
    unfold toTitleCase at 1. simpl falsy. cbv iota.
    rewrite Hlow. rewrite <- Ht. reflexivity. }
  split; [exact Hstable|].
  split; [|by vm_compute].
  intros s Hs. split; [|by apply toTitleCase_ascii_idempotent].
  rewrite (toTitleCase_ascii s Hs).
  rewrite !toLowerCase_ascii by (assumption || by apply ascii_scan_ascii).
  clear Hs. generalize true.
  induction s as [|c r IH]; intros b; simpl; [reflexivity|].
  destruct (N.eqb_spec c SP) as [->|Hne]; simpl; [by rewrite IH|].
  rewrite IH. f_equal.
  unfold SP in *.
  destruct b; unfold ascii_upper, ascii_lower, is_upper_az, is_lower_az;
    n_cases.
Qed.

(** C8 fails as stated: the upper case of the sharp s is SS, and title-casing
    SS gives Ss. *)
Lemma toTitleCase_not_idempotent :
  @toTitleCase latin1_case SHARP_S = js "SS"
  /\ @toTitleCase latin1_case (@toTitleCase latin1_case SHARP_S) = js "Ss"
  /\ @toTitleCase latin1_case (@toTitleCase latin1_case SHARP_S)
     <> @toTitleCase latin1_case SHARP_S.
Proof. vm_compute. repeat split; congruence. Qed.

Lemma toTitleCase_idempotent_when_stable_witness :
  forallb is_ascii (js "the FIRST  letter") = true
  /\ @toTitleCase latin1_case (@toTitleCase latin1_case (js "the FIRST  letter"))
     = @toTitleCase latin1_case (js "the FIRST  letter").
Proof.
  split; [reflexivity|].
  apply (proj1 (proj2 (@toTitleCase_idempotent_when_stable latin1_case))
           (js "the FIRST  letter")).
  reflexivity.
Defined.

(** A Latin-1 word outside ASCII whose title-cased form lower-cases back. *)
Example toTitleCase_stable_latin1 :
  @toLowerCase latin1_case (@toTitleCase latin1_case ([233] ++ js "t"))
  = @toLowerCase latin1_case ([233] ++ js "t")
  /\ @toTitleCase latin1_case (@toTitleCase latin1_case ([233] ++ js "t"))
     = @toTitleCase latin1_case ([233] ++ js "t").
Proof. split; reflexivity. Qed.

(** Only a space starts a word: the letter after a tab or a line feed stays
    in lower case, and two spaces stay two spaces. *)
Example toTitleCase_tab_and_newline :
  @toTitleCase latin1_case ([97; 9; 98; 10; 99] ++ js "  dE f")
  = [65; 9; 98; 10; 99] ++ js "  De F".
Proof. reflexivity. Qed.

(** ** Running computations *)

Lemma bind_normal {A B} (m : M A) (k : A -> M B) w a w' :
  m w = (Normal a, w') -> bind m k w = k a w'.
Proof. unfold bind. by intros ->. Qed.

Lemma bind_abrupt {A B} (m : M A) (k : A -> M B) w e w' :
  m w = (Abrupt e, w') -> bind m k w = (Abrupt e, w').
Proof. unfold bind. by intros ->. Qed.

Lemma array_elems_run w a es :
  heap w !! a = Some (OArray es) -> array_elems a w = (Normal es, w).
Proof. intros Ha. unfold array_elems, bind, get_object. by rewrite Ha. Qed.

Lemma array_length_run w a es :
  heap w !! a = Some (OArray es) -> array_length a w = (Normal (length es), w).
Proof.
  intros Ha. unfold array_length.
  by rewrite (bind_normal _ _ _ _ _ (array_elems_run _ _ _ Ha)).
Qed.

Lemma array_get_run w a es i :
  heap w !! a = Some (OArray es) -> array_get a i w = (Normal (es !! i), w).
Proof.
  intros Ha. unfold array_get.
  by rewrite (bind_normal _ _ _ _ _ (array_elems_run _ _ _ Ha)).
Qed.

Lemma get_pair_run w l p :
  heap w !! l = Some (OPair p) -> get_pair (Some l) w = (Normal p, w).
Proof. intros Hl. unfold get_pair, bind, get_object. by rewrite Hl. Qed.

Lemma get_arabic_run w l p :
  heap w !! l = Some (OPair p) ->
  get_arabic (Some l) w = (Normal (arabic p), w).
Proof.
  intros Hl. unfold get_arabic.
  by rewrite (bind_normal _ _ _ _ _ (get_pair_run _ _ _ Hl)).
Qed.

Lemma get_english_run w l p :
  heap w !! l = Some (OPair p) ->
  get_english (Some l) w = (Normal (english p), w).
Proof.
  intros Hl. unfold get_english.
  by rewrite (bind_normal _ _ _ _ _ (get_pair_run _ _ _ Hl)).
Qed.

(** The references [ls] lead to the pairs [ps], in this order. *)
Definition pairs_at (h : gmap loc object) (ls : list loc)
  (ps : list TranslationPair) : Prop :=
  Forall2 (fun l p => h !! l = Some (OPair p)) ls ps.

(** [data] refers to an array whose elements [ls] lead to the pairs [ps]. *)
Definition holds_pairs (w : World) (data : loc) (ls : list loc)
  (ps : list TranslationPair) : Prop :=
  heap w !! data = Some (OArray ls) /\ pairs_at (heap w) ls ps.

Lemma mapM_rows_run (row : loc -> M TableRow)
  (row_of : TranslationPair -> TableRow) w ls ps :
  (forall l p, heap w !! l = Some (OPair p) -> row l w = (Normal (row_of p), w)) ->
  pairs_at (heap w) ls ps ->
  mapM row ls w = (Normal (map row_of ps), w).
Proof.
  intros Hrow Hps. induction Hps as [|l p ls ps Hl _ IH]; [reflexivity|].
  simpl. rewrite (bind_normal _ _ _ _ _ (Hrow _ _ Hl)).
  by rewrite (bind_normal _ _ _ _ _ IH).
Qed.

Lemma alloc_lookup_old (h : gmap loc object) o l v :
  h !! l = Some v -> <[fresh (dom h) := o]> h !! l = Some v.
Proof.
  intros Hl. rewrite lookup_insert_ne; [exact Hl|].
  intros Heq. pose proof (is_fresh (dom h)) as Hf.
  rewrite Heq in Hf. apply Hf, elem_of_dom. by exists v.
Qed.

Lemma pairs_at_alloc h o ls ps :
  pairs_at h ls ps -> pairs_at (<[fresh (dom h) := o]> h) ls ps.
Proof.
  unfold pairs_at. intros Hps.
  eapply Forall2_impl; [exact Hps|].
  intros l p Hl. by apply alloc_lookup_old.
Qed.

(** The world after [exportToWord] copied the body into a new array. *)
Definition with_body_copy (bodyLocs : list loc) (w : World) : World :=
  set_heap (<[fresh (dom (heap w)) := OArray bodyLocs]> (heap w)) w.

Definition with_document (d : Document) (w : World) : World :=
  {| heap := heap w; console := console w; documents := documents w ++ [d];
     saved := saved w |}.

Definition with_log (entry : LogEntry) (w : World) : World :=
  {| heap := heap w; console := console w ++ [entry];
     documents := documents w; saved := saved w |}.

(** What the call does once the document description [d] is put together
    and the title is title-cased to [t]. *)
Definition hand_over (lib : Libraries) (d : Document) (t : jsstring)
  (w : World) : completion (option Pending) * World :=
  match docx_construct lib d with
  | Some e => (Abrupt e, w)
  | None =>
      match Packer_toBlob lib d with
      | PackThrows e => (Abrupt e, with_document d w)
      | PackReturns p =>
          (Normal (Some {| pending_promise := p; pending_title := t |}),
           with_document d w)
      end
  end.

Section ExportRuns.
Context `{CaseConversion} (lib : Libraries).

(** The rows and the document of [src/services/pdfService.ts], as functions
    of the pairs. *)
Definition row_of (p : TranslationPair) : TableRow :=
  {| cantSplit := false;
     row_children := [PdfService.arabicCell (arabic p);
                      PdfService.englishCell (english p)] |}.

Definition title_paragraphs (title : TranslationPair) : list SectionChild :=
  [ChildParagraph (PdfService.arabicTitle (arabic title));
   ChildParagraph (englishTitle (toTitleCase (english title)));
   ChildParagraph spacer].

Definition document_of (title : TranslationPair)
  (body : list TranslationPair) : Document :=
  doc (title_paragraphs title
       ++ match body with
          | [] => []
          | _ :: _ => [ChildTable (bodyTable (map row_of body))]
          end).

Lemma tableRow_run w l p :
  heap w !! l = Some (OPair p) ->
  PdfService.tableRow l w = (Normal (row_of p), w).
Proof.
  intros Hl. unfold PdfService.tableRow.
  rewrite (bind_normal _ _ _ _ _ (get_arabic_run _ _ _ Hl)).
  by rewrite (bind_normal _ _ _ _ _ (get_english_run _ _ _ Hl)).
Qed.

Lemma exportToWord_run w data l0 ls title body :
  holds_pairs w data (l0 :: ls) (title :: body) ->
  PdfService.exportToWord lib (Some data) w
  = hand_over lib (document_of title body) (toTitleCase (english title))
      (with_body_copy ls w).
Proof.
  intros [Hdata Hps]. inversion Hps as [|? ? ? ? Hl0 Hbody]; subst.
  unfold PdfService.exportToWord.
  rewrite (bind_normal _ _ _ _ _ (array_length_run _ _ _ Hdata)).
  change (Nat.eqb (length (l0 :: ls)) 0) with false. cbv iota.
  rewrite (bind_normal _ _ _ _ _ (array_get_run _ _ _ 0%nat Hdata)).
  simpl lookup.
  assert (Hcopy :
    (if Nat.ltb 1 (length (l0 :: ls)) then array_slice data 1
     else array_literal []) w
    = (Normal (fresh (dom (heap w))), with_body_copy ls w)).
  { destruct ls as [|l1 ls]; simpl.
    - reflexivity.
    - unfold array_slice.
      by rewrite (bind_normal _ _ _ _ _ (array_elems_run _ _ _ Hdata)). }
  rewrite (bind_normal _ _ _ _ _ Hcopy).
  set (w1 := with_body_copy ls w).
  assert (Hl0' : heap w1 !! l0 = Some (OPair title))
    by (by apply alloc_lookup_old).
  assert (Hbody' : pairs_at (heap w1) ls body) by (by apply pairs_at_alloc).
  assert (Hcopied : heap w1 !! fresh (dom (heap w)) = Some (OArray ls))
    by apply lookup_insert_eq.
  rewrite (bind_normal _ _ _ _ _ (get_english_run _ _ _ Hl0')).
  rewrite (bind_normal _ _ _ _ _ (get_arabic_run _ _ _ Hl0')).
  rewrite (bind_normal _ _ _ _ _ (array_elems_run _ _ _ Hcopied)).
  rewrite (bind_normal _ _ _ _ _
             (mapM_rows_run _ row_of _ _ _ (tableRow_run w1) Hbody')).
  assert (Hdoc :
    doc ([ChildParagraph (PdfService.arabicTitle (arabic title));
          ChildParagraph (englishTitle (toTitleCase (english title)));
          ChildParagraph spacer]
         ++ (if Nat.ltb 0 (length ls)
             then [ChildTable (bodyTable (map row_of body))] else []))
    = document_of title body).
  { unfold document_of, title_paragraphs.
    apply Forall2_length in Hbody. destruct ls, body; simpl in *; congruence. }
  rewrite Hdoc. unfold hand_over, bind, new_Document, call_toBlob.
  destruct (docx_construct lib (document_of title body)); [reflexivity|].
  destruct (Packer_toBlob lib (document_of title body)); reflexivity.
Qed.

Lemma exportToWord_empty w data :
  heap w !! data = Some (OArray []) ->
  PdfService.exportToWord lib (Some data) w
  = (Normal None, with_log (NO_DATA, None) w).
Proof.
  intros Hdata. unfold PdfService.exportToWord.
  by rewrite (bind_normal _ _ _ _ _ (array_length_run _ _ _ Hdata)).
Qed.

End ExportRuns.

(** ** The store only grows *)

(** A computation that leaves every object of the store as it found it. *)
Definition grows {A} (m : M A) : Prop :=
  forall w, heap w ⊆ heap (m w).2.

Lemma grows_ret {A} (a : A) : grows (ret a).
Proof. intros w. reflexivity. Qed.

Lemma grows_throw {A} e : grows (@throw A e).
Proof. intros w. reflexivity. Qed.

Lemma grows_bind {A B} (m : M A) (k : A -> M B) :
  grows m -> (forall a, grows (k a)) -> grows (bind m k).
Proof.
  intros Hm Hk w. unfold bind. specialize (Hm w).
  destruct (m w) as [[a|e] w']; simpl in *; [|exact Hm].
  etransitivity; [exact Hm | apply Hk].
Qed.

Lemma grows_try {A} (m : M A) : grows m -> grows (try m).
Proof.
  intros Hm w. unfold try. specialize (Hm w). by destruct (m w).
Qed.

Lemma grows_mapM {A B} (f : A -> M B) l :
  (forall a, grows (f a)) -> grows (mapM f l).
Proof.
  intros Hf. induction l as [|a l IH]; simpl; [apply grows_ret|].
  apply grows_bind; [apply Hf|]. intros b.
  apply grows_bind; [exact IH|]. intros bs. apply grows_ret.
Qed.

Lemma grows_get_object l : grows (get_object l).
Proof. intros w. unfold get_object. by destruct (heap w !! l). Qed.

Lemma grows_alloc o : grows (alloc o).
Proof.
  intros w. unfold alloc. simpl. apply insert_subseteq.
  apply not_elem_of_dom, is_fresh.
Qed.

Lemma grows_console_error msg v : grows (console_error msg v).
Proof. intros w. reflexivity. Qed.

Lemma grows_new_Document lib d : grows (new_Document lib d).
Proof. intros w. unfold new_Document. by destruct (docx_construct lib d). Qed.

Lemma grows_call_toBlob lib d : grows (call_toBlob lib d).
Proof.
  unfold call_toBlob.
  destruct (Packer_toBlob lib d); [apply grows_throw | apply grows_ret].
Qed.

Lemma grows_call_saveAs lib blob filename :
  grows (call_saveAs lib blob filename).
Proof.
  intros w. unfold call_saveAs. by destruct (saveAs lib blob filename).
Qed.

Ltac grows_step :=
  first
    [ apply grows_ret | apply grows_throw | apply grows_get_object
    | apply grows_alloc | apply grows_console_error
    | apply grows_new_Document | apply grows_call_toBlob
    | apply grows_call_saveAs
    | apply grows_try
    | apply grows_mapM; intros ?
    | apply grows_bind; [|intros ?]
    | match goal with
      | |- grows (if ?b then _ else _) => destruct b
      | |- grows (match ?x with _ => _ end) => destruct x
      end ].

Lemma grows_array_elems a : grows (array_elems a).
Proof. unfold array_elems. repeat grows_step. Qed.

Lemma grows_get_pair p : grows (get_pair p).
Proof. unfold get_pair. repeat grows_step. Qed.

Lemma grows_reactions lib p : grows (exportToWord_reactions lib p).
Proof. unfold exportToWord_reactions. repeat grows_step. Qed.

Section Frame.
Context `{CaseConversion} (lib : Libraries).

Lemma grows_exportToWord data : grows (PdfService.exportToWord lib data).
Proof.
  unfold PdfService.exportToWord, PdfService.tableRow, array_length,
    array_get, array_slice, array_literal, get_arabic, get_english.
  repeat first [apply grows_array_elems | apply grows_get_pair | grows_step].
Qed.

Lemma grows_exportToWord_settled data :
  grows (PdfService.exportToWord_settled lib data).
Proof.
  unfold PdfService.exportToWord_settled.
  apply grows_bind; [apply grows_exportToWord|].
  intros [p|]; [apply grows_reactions | apply grows_ret].
Qed.

Lemma grows_part000_exportToWord data : grows (Part000.exportToWord lib data).
Proof.
  unfold Part000.exportToWord, Part000.tableRow, array_length,
    array_get, array_slice, array_literal, get_arabic, get_english.
  repeat first [apply grows_array_elems | apply grows_get_pair | grows_step].
Qed.

Lemma grows_part000_exportToWord_settled data :
  grows (Part000.exportToWord_settled lib data).
Proof.
  unfold Part000.exportToWord_settled.
  apply grows_bind; [apply grows_part000_exportToWord|].
  intros [p|]; [apply grows_reactions | apply grows_ret].
Qed.

End Frame.

Lemma grows_handleTranslate_start st : grows (handleTranslate_start st).
Proof. unfold handleTranslate_start, array_literal. repeat grows_step. Qed.

Lemma grows_lookup {A} (m : M A) w l o :
  grows m -> heap w !! l = Some o -> heap (m w).2 !! l = Some o.
Proof. intros Hm Hl. eapply lookup_weaken; [exact Hl | apply Hm]. Qed.

Lemma handleTranslate_start_fresh st w st' text w' :
  handleTranslate_start st w = (Normal (st', Some text), w') ->
  (translationPairs st' ∉ dom (heap w))
  /\ heap w' !! translationPairs st' = Some (OArray []).
Proof.
  unfold handleTranslate_start.
  destruct (falsy (trim (arabicText st))); [discriminate|].
  unfold bind, array_literal, alloc, ret. simpl.
  intros [= <- _ <-]. simpl. split; [apply is_fresh | apply lookup_insert_eq].
Qed.

(** C9. [exportToWord], with the reactions that follow it, leaves every
    object that was in the store as it was, the pairs and the array of the
    input among them, in both copies of the exporter; the only array it makes
    is the copy of the body.  [handleTranslate] changes no object either: it
    starts by pointing the state at a new empty array, which is no array of
    the store before, and ends by pointing it at the array the adapter
    resolved to. *)
Theorem input_never_mutated `{CaseConversion} :
  (forall lib data w l o,
     heap w !! l = Some o ->
     heap (PdfService.exportToWord_settled lib data w).2 !! l = Some o)
  /\ (forall lib data w l o,
        heap w !! l = Some o ->
        heap (Part000.exportToWord_settled lib data w).2 !! l = Some o)
  /\ (forall lib w data l0 ls title body,
        holds_pairs w data (l0 :: ls) (title :: body) ->
        heap (PdfService.exportToWord lib (Some data) w).2
        = <[fresh (dom (heap w)) := OArray ls]> (heap w)
        /\ (fresh (dom (heap w)) ∉ dom (heap w)))
  /\ (forall st w l o,
        heap w !! l = Some o ->
        heap (handleTranslate_start st w).2 !! l = Some o)
  /\ (forall st w st' text w',
        handleTranslate_start st w = (Normal (st', Some text), w') ->
        (translationPairs st' ∉ dom (heap w))
        /\ heap w' !! translationPairs st' = Some (OArray []))
  /\ (forall st result,
        translationPairs (handleTranslate_resume st (Normal result)) = result).
Proof.
  split; [|split; [|split; [|split; [|split]]]].
  - intros lib data w l o. apply grows_lookup, grows_exportToWord_settled.
  - intros lib data w l o.
    apply grows_lookup, grows_part000_exportToWord_settled.
  - intros lib w data l0 ls title body Hdata. split; [|apply is_fresh].
    rewrite (exportToWord_run lib w data l0 ls title body) by assumption.
    unfold hand_over.
    destruct (docx_construct lib _); [reflexivity|].
    destruct (Packer_toBlob lib _); reflexivity.
  - intros st w l o. apply grows_lookup, grows_handleTranslate_start.
  - intros st w st' text w'. apply handleTranslate_start_fresh.
  - intros st result. reflexivity.
Qed.

(** ** Exporting one pair, and exporting nothing *)

(** C7. Called with an array of exactly one pair, [exportToWord] hands the
    library one document.  Its children are three paragraphs and no table:
    the Arabic title, centred, bold and underlined, holding the Arabic text of
    the pair; the English title, holding the title-cased English text; and
    the empty spacer.  When the library accepts the document, it is the one
    document constructed.  Called with an empty array, or with no array, it
    logs one diagnostic and does nothing else: the store, the documents and
    the saved files are as before, and it returns normally. *)
Theorem exportToWord_title_only_and_empty `{CaseConversion}
  (lib : Libraries) (w : World) (data : loc) :
  (forall l0 title,
     holds_pairs w data [l0] [title] ->
     exists d,
       PdfService.exportToWord lib (Some data) w
       = hand_over lib d (toTitleCase (english title)) (with_body_copy [] w)
       /\ (docx_construct lib d = None ->
           documents (PdfService.exportToWord lib (Some data) w).2
           = documents w ++ [d])
       /\ document_texts d
          = [arabic title; toTitleCase (english title); []]
       /\ tables d = []
       /\ section_children d
          = [ChildParagraph
               {| alignment := Some CENTER; bidirectional := true;
                  para_text := None;
                  para_children :=
                    [ {| text := arabic title; font := FONT_FAMILY;
                         size := FONT_SIZE_HALF_PT; bold := true;
                         underline := Some SINGLE; rtl := true |} ] |};
             ChildParagraph
               {| alignment := Some CENTER; bidirectional := false;
                  para_text := None;
                  para_children :=
                    [ {| text := toTitleCase (english title);
                         font := FONT_FAMILY; size := FONT_SIZE_HALF_PT;
                         bold := true; underline := Some SINGLE;
                         rtl := false |} ] |};
             ChildParagraph
               {| alignment := None; bidirectional := false;
                  para_text := Some []; para_children := [] |}])
  /\ (heap w !! data = Some (OArray []) ->
      PdfService.exportToWord lib (Some data) w
      = (Normal None, with_log (NO_DATA, None) w))
  /\ PdfService.exportToWord lib None w
     = (Normal None, with_log (NO_DATA, None) w).
Proof.
  split; [|split].
  - intros l0 title Hdata. exists (document_of title []).
    rewrite (exportToWord_run lib w data l0 [] title []) by assumption.
    split; [reflexivity|].
    split; [|repeat split].
    unfold hand_over. intros ->.
    destruct (Packer_toBlob lib (document_of title [])); reflexivity.
  - apply exportToWord_empty.
  - reflexivity.
Qed.

(** ** A worked export *)

(** A library that accepts every document and packs it into two bytes. *)
Definition packing_lib : Libraries :=
  {| docx_construct := fun _ => None;
     Packer_toBlob := fun _ => PackReturns (Fulfilled [80; 75]);
     saveAs := fun _ _ => None |}.

Definition OUT_OF_MEMORY : thrown := ErrorObj (js "out of memory").

(** A library whose packer rejects. *)
Definition rejecting_lib : Libraries :=
  {| docx_construct := fun _ => None;
     Packer_toBlob := fun _ => PackReturns (Rejected OUT_OF_MEMORY);
     saveAs := fun _ _ => None |}.

(** A library whose document constructor throws. *)
Definition throwing_lib : Libraries :=
  {| docx_construct := fun _ => Some OUT_OF_MEMORY;
     Packer_toBlob := fun _ => PackReturns (Fulfilled [80; 75]);
     saveAs := fun _ _ => None |}.

Definition a_title : TranslationPair :=
  {| arabic := [1571]; english := js "a title" |}.

(** A body pair of two lines in each language. *)
Definition two_lines : TranslationPair :=
  {| arabic := [1576; 10; 1580]; english := js "row one" ++ [LF] ++ js "row two" |}.

Definition world_of (objects : list (loc * object)) : World :=
  {| heap := list_to_map objects; console := []; documents := [];
     saved := [] |}.

(** The store after a translation of a title and one body pair. *)
Definition translated : World :=
  world_of [(1%positive, OArray [2%positive; 3%positive]);
            (2%positive, OPair a_title);
            (3%positive, OPair two_lines)].

Definition title_alone : World :=
  world_of [(1%positive, OArray [2%positive]); (2%positive, OPair a_title)].

Definition nothing_translated : World :=
  world_of [(1%positive, OArray [])].

Lemma translated_holds :
  holds_pairs translated 1%positive [2%positive; 3%positive]
    [a_title; two_lines].
Proof. split; [reflexivity|]. repeat constructor. Qed.

Lemma title_alone_holds :
  holds_pairs title_alone 1%positive [2%positive] [a_title].
Proof. split; [reflexivity|]. repeat constructor. Qed.

Lemma exportToWord_title_only_and_empty_witness :
  exists d,
    documents
      (@PdfService.exportToWord latin1_case packing_lib (Some 1%positive)
         title_alone).2
    = [d]
    /\ document_texts d = [[1571]; js "A Title"; []]
    /\ tables d = [].
Proof.
  destruct (@exportToWord_title_only_and_empty latin1_case packing_lib
              title_alone 1%positive) as [Hone _].
  destruct (Hone 2%positive a_title title_alone_holds)
    as (d & _ & Hdocs & Htexts & Htables & _).
  exists d. split; [exact (Hdocs eq_refl)|]. split; [exact Htexts|].
  exact Htables.
Defined.

(** The specification's example: the file is saved under the title-cased
    title with the language label and the extension. *)
Example exported_filename :
  saved (@PdfService.exportToWord_settled latin1_case packing_lib
           (Some 1%positive) translated).2
  = [([80; 75], js "A Title (Arabic + English).docx")].
Proof. vm_compute. reflexivity. Qed.

(** ** Line breaks inside a segment *)

(** The line breaks of a text: its line feeds (a carriage return before one
    belongs to the same break). *)
Definition line_breaks (s : jsstring) : nat :=
  length (List.filter (fun c => c =? LF) s).

Definition table_cells (d : Document) : list TableCell :=
  flat_map (fun c => match c with
                     | ChildTable t => flat_map row_children (rows t)
                     | ChildParagraph _ => []
                     end)
           (section_children d).

(** In [src/services/pdfService.ts] a body cell is one paragraph of one run,
    whatever the text; the run holds the text with its line feeds. *)
Lemma row_of_one_paragraph (p : TranslationPair) :
  map (fun c => length (cell_children c)) (row_children (row_of p)) = [1; 1]%nat
  /\ flat_map (fun c => flat_map (fun q => map text (para_children q))
                          (cell_children c))
       (row_children (row_of p))
     = [arabic p; english p].
Proof. split; reflexivity. Qed.

(** In [src/services/pdfService.ts], the earlier copy of the exporter, the
    pair [two_lines], which has one line break in each language, gets two
    cells of a single paragraph each. *)
Theorem exportToWord_one_paragraph_per_cell :
  line_breaks (arabic two_lines) = 1%nat
  /\ line_breaks (english two_lines) = 1%nat
  /\ map (fun d => map (fun c => length (cell_children c)) (table_cells d))
       (documents (@PdfService.exportToWord latin1_case packing_lib
                     (Some 1%positive) translated).2)
     = [[1; 1]%nat].
Proof. vm_compute. repeat split. Qed.

Lemma split_lines_nonempty s : split_lines s <> [].
Proof.
  destruct s as [|c r]; simpl; [discriminate|].
  destruct (c =? LF); [discriminate|].
  destruct r as [|c' r']; [discriminate|].
  destruct ((c =? CR) && (c' =? LF));
    destruct (split_lines (c' :: r')); discriminate.
Qed.

Lemma split_lines_length s : length (split_lines s) = S (line_breaks s).
Proof.
  unfold line_breaks. induction s as [|c r IH]; [reflexivity|].
  pose proof (split_lines_nonempty r) as Hn.
  cbn [split_lines List.filter].
  destruct (c =? LF) eqn:Hc; [simpl; by rewrite IH|].
  destruct r as [|c' r']; [reflexivity|].
  destruct ((c =? CR) && (c' =? LF));
    destruct (split_lines (c' :: r')) as [|l ls]; try congruence;
    simpl in *; exact IH.
Qed.

(** In [src/unnamed/part_000] a text with [k] line breaks becomes [k + 1]
    paragraphs, so each cell of a row has one paragraph per line. *)
Lemma createParagraphsFromText_lines text isRtl al :
  length (Part000.createParagraphsFromText text isRtl al)
  = S (line_breaks text).
Proof.
  unfold Part000.createParagraphsFromText.
  by rewrite length_map, split_lines_length.
Qed.

Lemma part000_tableRow_lines w l p :
  heap w !! l = Some (OPair p) ->
  exists r,
    Part000.tableRow l w = (Normal r, w)
    /\ map (fun c => length (cell_children c)) (row_children r)
       = [S (line_breaks (arabic p)); S (line_breaks (english p))].
Proof.
  intros Hl. unfold Part000.tableRow.
  rewrite (bind_normal _ _ _ _ _ (get_arabic_run _ _ _ Hl)).
  rewrite (bind_normal _ _ _ _ _ (get_english_run _ _ _ Hl)).
  eexists. split; [reflexivity|]. simpl.
  by rewrite !createParagraphsFromText_lines.
Qed.

Lemma part000_tableRow_lines_witness :
  exists r,
    Part000.tableRow 3%positive translated = (Normal r, translated)
    /\ map (fun c => length (cell_children c)) (row_children r) = [2; 2]%nat.
Proof. exact (part000_tableRow_lines translated 3%positive two_lines eq_refl). Defined.

(** The same export through [src/unnamed/part_000]: two paragraphs in each
    cell. *)
Example part000_two_paragraphs_per_cell :
  map (fun d => map (fun c => length (cell_children c)) (table_cells d))
    (documents (@Part000.exportToWord latin1_case packing_lib
                  (Some 1%positive) translated).2)
  = [[2; 2]%nat].
Proof. vm_compute. reflexivity. Qed.

(** ** Failures of the export *)

Definition with_saved (blob : Blob) (filename : jsstring) (w : World) : World :=
  {| heap := heap w; console := console w; documents := documents w;
     saved := saved w ++ [(blob, filename)] |}.

Section ExportFailures.
Context `{CaseConversion} (lib : Libraries).

Lemma handleExport_run st w l0 ls title body :
  holds_pairs w (translationPairs st) (l0 :: ls) (title :: body) ->
  handleExport lib st w
  = let st1 := setError None (setIsExporting true st) in
    match hand_over lib (document_of title body)
            (toTitleCase (english title)) (with_body_copy ls w) with
    | (Normal p, w1) => (Normal (setTimeout 800 st1, p), w1)
    | (Abrupt err, w1) =>
        (Normal (setTimeout 800
                   (setError (Some (message_or UNKNOWN_EXPORT_ERROR err)) st1),
                 None), w1)
    end.
Proof.
  intros Hdata. unfold handleExport.
  rewrite (bind_normal _ _ _ _ _ (array_length_run _ _ _ (proj1 Hdata))).
  change (Nat.eqb (length (l0 :: ls)) 0) with false. cbv iota zeta.
  unfold bind at 1. unfold try.
  change (translationPairs (setError None (setIsExporting true st)))
    with (translationPairs st).
  rewrite (exportToWord_run lib w _ l0 ls title body Hdata).
  destruct (hand_over lib _ _ _) as [[p|err] w1]; reflexivity.
Qed.

(** The reactions never throw. *)
Lemma reactions_return p w :
  exists w', exportToWord_reactions lib p w = (Normal tt, w').
Proof.
  unfold exportToWord_reactions. destruct (pending_promise p) as [blob|e].
  - unfold bind, try, call_saveAs.
    destruct (saveAs lib blob _); eexists; reflexivity.
  - eexists. reflexivity.
Qed.

(** Whatever [exportToWord] throws before it returns is caught by
    [handleExport] and shown. *)
Lemma handleExport_catches st w es :
  heap w !! translationPairs st = Some (OArray es) ->
  es <> [] ->
  let st1 := setError None (setIsExporting true st) in
  match PdfService.exportToWord lib (Some (translationPairs st)) w with
  | (Normal p, w1) =>
      handleExport lib st w = (Normal (setTimeout 800 st1, p), w1)
  | (Abrupt e, w1) =>
      handleExport lib st w
      = (Normal (setTimeout 800
                   (setError (Some (message_or UNKNOWN_EXPORT_ERROR e)) st1),
                 None), w1)
  end.
Proof.
  intros Hdata Hne st1.
  assert (Hrun :
    handleExport lib st w
    = match PdfService.exportToWord lib (Some (translationPairs st)) w with
      | (Normal p, w1) => (Normal (setTimeout 800 st1, p), w1)
      | (Abrupt e, w1) =>
          (Normal (setTimeout 800
                     (setError (Some (message_or UNKNOWN_EXPORT_ERROR e)) st1),
                   None), w1)
      end).
  { unfold handleExport.
    rewrite (bind_normal _ _ _ _ _ (array_length_run _ _ _ Hdata)).
    destruct es as [|l0 ls]; [congruence|].
    change (Nat.eqb (length (l0 :: ls)) 0) with false. cbv iota zeta.
    unfold bind, try.
    change (translationPairs (setError None (setIsExporting true st)))
      with (translationPairs st).
    destruct (PdfService.exportToWord lib (Some (translationPairs st)) w)
      as [[p|e] w1]; reflexivity. }
  destruct (PdfService.exportToWord lib (Some (translationPairs st)) w)
    as [[p|e] w1]; exact Hrun.
Qed.

(** C4, as amended. With a sequence that is not empty, [handleExport] always
    returns: whatever [exportToWord] throws before it returns is caught and
    its message put into the error state.  For a well-formed sequence: an
    exception thrown while the document is put together, or by the call of
    the packer, ends in the error state, with nothing logged or saved; when
    the promise of the packer rejects, [handleExport] has returned with the
    error state empty, and the reaction logs the error to the console and
    saves nothing; when [saveAs] throws, the reaction logs the error in the
    same way.  The reactions never throw. *)
Theorem export_failure_handling st w :
  let st1 := setError None (setIsExporting true st) in
  (forall es,
     heap w !! translationPairs st = Some (OArray es) ->
     es <> [] ->
     match PdfService.exportToWord lib (Some (translationPairs st)) w with
     | (Normal p, w1) =>
         handleExport lib st w = (Normal (setTimeout 800 st1, p), w1)
     | (Abrupt e, w1) =>
         handleExport lib st w
         = (Normal (setTimeout 800
                      (setError (Some (message_or UNKNOWN_EXPORT_ERROR e)) st1),
                    None), w1)
     end)
  /\ (forall p w0, exists w', exportToWord_reactions lib p w0 = (Normal tt, w'))
  /\ (forall l0 ls title body,
        holds_pairs w (translationPairs st) (l0 :: ls) (title :: body) ->
        let d := document_of title body in
        let t := toTitleCase (english title) in
        (forall e,
           docx_construct lib d = Some e
           \/ (docx_construct lib d = None
               /\ Packer_toBlob lib d = PackThrows e) ->
           exists w1,
             handleExport lib st w
             = (Normal (setTimeout 800
                          (setError (Some (message_or UNKNOWN_EXPORT_ERROR e))
                             st1),
                        None), w1)
             /\ console w1 = console w /\ saved w1 = saved w)
        /\ (forall e,
              docx_construct lib d = None ->
              Packer_toBlob lib d = PackReturns (Rejected e) ->
              exists w1,
                let p := {| pending_promise := Rejected e;
                            pending_title := t |} in
                handleExport lib st w
                = (Normal (setTimeout 800 st1, Some p), w1)
                /\ error (setTimeout 800 st1) = None
                /\ console w1 = console w /\ saved w1 = saved w
                /\ exportToWord_reactions lib p w1
                   = (Normal tt, with_log (GENERATION_ERROR, Some e) w1))
        /\ (forall blob e,
              docx_construct lib d = None ->
              Packer_toBlob lib d = PackReturns (Fulfilled blob) ->
              saveAs lib blob (sanitizeFilename t ++ FILENAME_SUFFIX) = Some e ->
              exists w1,
                let p := {| pending_promise := Fulfilled blob;
                            pending_title := t |} in
                handleExport lib st w
                = (Normal (setTimeout 800 st1, Some p), w1)
                /\ error (setTimeout 800 st1) = None
                /\ exportToWord_reactions lib p w1
                   = (Normal tt,
                      with_log (GENERATION_ERROR, Some e)
                        (with_saved blob
                           (sanitizeFilename t ++ FILENAME_SUFFIX) w1)))).
Proof.
  intros st1. split; [|split].
  - intros es. apply handleExport_catches.
  - apply reactions_return.
  - intros l0 ls title body Hdata d t.
    pose proof (handleExport_run st w l0 ls title body Hdata) as Hrun.
    cbv zeta in Hrun. fold d t st1 in Hrun. unfold hand_over in Hrun.
    split; [|split].
    + intros e [He|[Hd He]]; rewrite Hrun.
      * rewrite He. eexists. split; [reflexivity|]. split; reflexivity.
      * rewrite Hd, He. eexists. split; [reflexivity|]. split; reflexivity.
    + intros e Hd He. rewrite Hrun, Hd, He. eexists.
      split; [reflexivity|]. repeat split.
    + intros blob e Hd Hb Hs. rewrite Hrun, Hd, Hb. eexists.
      split; [reflexivity|]. split; [reflexivity|].
      unfold exportToWord_reactions, bind, try, call_saveAs. simpl.
      fold t. rewrite Hs. reflexivity.
Qed.

End ExportFailures.

(** The state of the application after the translation of [translated]. *)
Definition after_translation : AppState :=
  {| arabicText := [1571; 10; 10; 1576; 10; 1580]; translationPairs := 1%positive;
     isLoading := false; error := None; isExporting := false;
     timeouts := [] |}.

Lemma export_failure_handling_witness :
  exists w1,
    @handleExport latin1_case throwing_lib after_translation translated
    = (Normal (setTimeout 800
                 (setError (Some (js "out of memory"))
                    (setError None (setIsExporting true after_translation))),
               None), w1)
    /\ console w1 = console translated /\ saved w1 = saved translated.
Proof.
  destruct (@export_failure_handling latin1_case throwing_lib
              after_translation translated) as (_ & _ & Hcases).
  destruct (Hcases 2%positive [3%positive] a_title [two_lines]
              translated_holds) as (Hthrow & _).
  exact (Hthrow OUT_OF_MEMORY (or_introl eq_refl)).
Defined.

(** C4 fails as stated: when the packer rejects, the error state of the
    application stays empty after the handler, the reactions and the timer;
    the error is in the console only. *)
Lemma packer_rejection_not_shown :
  exists st' w',
    @handleExport_settled latin1_case rejecting_lib after_translation translated
    = (Normal st', w')
    /\ error st' = None
    /\ console w' = [(GENERATION_ERROR, Some OUT_OF_MEMORY)]
    /\ saved w' = [].
Proof. do 2 eexists. vm_compute. repeat split. Qed.

(** ** The JSON parser *)

Lemma skip_ws_length s : (length (skip_ws s) <= length s)%nat.
Proof.
  induction s as [|c r IH]; simpl; [lia|].
  destruct (json_ws c); simpl; lia.
Qed.

Lemma parse_string_body_length s :
  forall v rest, parse_string_body s = Some (v, rest) ->
                 (length rest < length s)%nat.
Proof.
  induction s as [s IH] using (induction_ltof1 _ (@length N)).
  unfold ltof in IH. intros v rest.
  destruct s as [|c r]; simpl; [discriminate|].
  destruct (c =? QUOTE).
  { intros [= <- <-]. lia. }
  destruct (c =? BACKSLASH).
  - destruct r as [|e r1]; [discriminate|].
    destruct (e =? 117).
    + destruct r1 as [|h1 [|h2 [|h3 [|h4 r2]]]]; try discriminate.
      destruct (hex4 h1 h2 h3 h4); [|discriminate].
      destruct (parse_string_body r2) as [[v' rest']|] eqn:Hr; [|discriminate].
      intros [= <- <-]. apply IH in Hr; simpl in *; lia.
    + destruct (escape_value e); [|discriminate].
      destruct (parse_string_body r1) as [[v' rest']|] eqn:Hr; [|discriminate].
      intros [= <- <-]. apply IH in Hr; simpl in *; lia.
  - destruct (c <? 32); [discriminate|].
    destruct (parse_string_body r) as [[v' rest']|] eqn:Hr; [|discriminate].
    intros [= <- <-]. apply IH in Hr; simpl in *; lia.
Qed.

Lemma span_digits_length s :
  (length (span_digits s).2 <= length s)%nat.
Proof.
  induction s as [|c r IH]; simpl; [lia|].
  destruct (is_digit c); [|simpl; lia].
  destruct (span_digits r); simpl in *; lia.
Qed.

Lemma strip_prefix_length lit s rest :
  strip_prefix lit s = Some rest -> (length rest + length lit = length s)%nat.
Proof.
  revert s. induction lit as [|a lit IH]; intros [|b s]; simpl;
    try discriminate; try (intros [= <-]; simpl; lia).
  destruct (a =? b); [|discriminate]. intros Hs. apply IH in Hs. lia.
Qed.

Lemma number_sign_length s : (length (number_sign s).2 <= length s)%nat.
Proof.
  destruct s as [|c r]; simpl; [lia|]. destruct (c =? 45); simpl; lia.
Qed.

Lemma number_int_length s i rest :
  number_int s = Some (i, rest) -> (length rest < length s)%nat.
Proof.
  destruct s as [|c r]; simpl; [discriminate|].
  destruct (c =? 48); [intros [= <- <-]; lia|].
  destruct (is_digit c); [|discriminate].
  pose proof (span_digits_length r) as Hr.
  destruct (span_digits r). intros [= <- <-]. simpl in *. lia.
Qed.

Lemma number_frac_length s fr rest :
  number_frac s = Some (fr, rest) -> (length rest <= length s)%nat.
Proof.
  destruct s as [|c r]; simpl; [intros [= <- <-]; simpl; lia|].
  destruct (c =? 46); [|intros [= <- <-]; simpl; lia].
  pose proof (span_digits_length r) as Hr.
  destruct (span_digits r) as [[|d ds] rest']; [discriminate|].
  intros [= <- <-]. simpl in *. lia.
Qed.

Lemma number_exp_length s ex rest :
  number_exp s = Some (ex, rest) -> (length rest <= length s)%nat.
Proof.
  destruct s as [|c r]; simpl; [intros [= <- <-]; simpl; lia|].
  destruct ((c =? 101) || (c =? 69)); [|intros [= <- <-]; simpl; lia].
  destruct r as [|d r'].
  - simpl. discriminate.
  - destruct ((d =? 43) || (d =? 45)).
    + pose proof (span_digits_length r') as Hr.
      destruct (span_digits r') as [[|x ds] rest']; [discriminate|].
      intros [= <- <-]. simpl in *. lia.
    + pose proof (span_digits_length (d :: r')) as Hr.
      destruct (span_digits (d :: r')) as [[|x ds] rest']; [discriminate|].
      intros [= <- <-]. simpl in *. lia.
Qed.

Lemma parse_number_length s lex rest :
  parse_number s = Some (lex, rest) -> (length rest < length s)%nat.
Proof.
  unfold parse_number.
  pose proof (number_sign_length s) as Hs.
  destruct (number_sign s) as [sign s1].
  destruct (number_int s1) as [[i s2]|] eqn:Hi; [|discriminate].
  destruct (number_frac s2) as [[fr s3]|] eqn:Hf; [|discriminate].
  destruct (number_exp s3) as [[ex s4]|] eqn:He; [|discriminate].
  intros [= <- <-].
  apply number_int_length in Hi. apply number_frac_length in Hf.
  apply number_exp_length in He. simpl in *. lia.
Qed.

(** What a successful parse leaves is shorter than what it was given. *)
Lemma parse_consumes fuel :
  (forall s v rest, parse_value fuel s = Some (v, rest) ->
                    (length rest < length s)%nat)
  /\ (forall s vs rest, parse_elements fuel s = Some (vs, rest) ->
                        (S (length rest) < length s)%nat)
  /\ (forall s ms rest, parse_members fuel s = Some (ms, rest) ->
                        (S (length rest) < length s)%nat).
Proof.
  induction fuel as [|fuel (IHv & IHe & IHm)].
  { repeat split; intros; discriminate. }
  split; [|split].
  - intros s v rest. cbn [parse_value].
    pose proof (skip_ws_length s) as Hs.
    destruct (skip_ws s) as [|c r]; [discriminate|]. simpl in Hs.
    destruct (c =? QUOTE).
    { destruct (parse_string_body r) as [[x rest']|] eqn:Hr; [|discriminate].
      intros [= <- <-]. apply parse_string_body_length in Hr. lia. }
    destruct (c =? 91).
    { pose proof (skip_ws_length r) as Hr.
      destruct (skip_ws r) as [|c' r']; [discriminate|]. simpl in Hr.
      destruct (c' =? 93); [intros [= <- <-]; lia|].
      destruct (parse_elements fuel r) as [[vs rest']|] eqn:He; [|discriminate].
      intros [= <- <-]. apply IHe in He. lia. }
    destruct (c =? 123).
    { pose proof (skip_ws_length r) as Hr.
      destruct (skip_ws r) as [|c' r']; [discriminate|]. simpl in Hr.
      destruct (c' =? 125); [intros [= <- <-]; lia|].
      destruct (parse_members fuel r) as [[ms rest']|] eqn:He; [|discriminate].
      intros [= <- <-]. apply IHm in He. lia. }
    destruct (c =? 116).
    { destruct (strip_prefix (js "true") (c :: r)) eqn:Hp; [|discriminate].
      intros [= <- <-]. apply strip_prefix_length in Hp. simpl in *. lia. }
    destruct (c =? 102).
    { destruct (strip_prefix (js "false") (c :: r)) eqn:Hp; [|discriminate].
      intros [= <- <-]. apply strip_prefix_length in Hp. simpl in *. lia. }
    destruct (c =? 110).
    { destruct (strip_prefix (js "null") (c :: r)) eqn:Hp; [|discriminate].
      intros [= <- <-]. apply strip_prefix_length in Hp. simpl in *. lia. }
    destruct (parse_number (c :: r)) as [[lex rest']|] eqn:Hn; [|discriminate].
    intros [= <- <-]. apply parse_number_length in Hn. simpl in *. lia.
  - intros s vs rest. cbn [parse_elements].
    destruct (parse_value fuel s) as [[v r]|] eqn:Hv; [|discriminate].
    apply IHv in Hv.
    pose proof (skip_ws_length r) as Hr.
    destruct (skip_ws r) as [|c r']; [discriminate|]. simpl in Hr.
    destruct (c =? 44).
    { destruct (parse_elements fuel r') as [[vs' rest']|] eqn:He; [|discriminate].
      intros [= <- <-]. apply IHe in He. lia. }
    destruct (c =? 93); [|discriminate]. intros [= <- <-]. lia.
  - intros s ms rest. cbn [parse_members].
    pose proof (skip_ws_length s) as Hs.
    destruct (skip_ws s) as [|q r0]; [discriminate|]. simpl in Hs.
    destruct (q =? QUOTE); [|discriminate].
    destruct (parse_string_body r0) as [[k r1]|] eqn:Hk; [|discriminate].
    apply parse_string_body_length in Hk.
    pose proof (skip_ws_length r1) as Hr1.
    destruct (skip_ws r1) as [|colon r2]; [discriminate|]. simpl in Hr1.
    destruct (colon =? 58); [|discriminate].
    destruct (parse_value fuel r2) as [[v r3]|] eqn:Hv; [|discriminate].
    apply IHv in Hv.
    pose proof (skip_ws_length r3) as Hr3.
    destruct (skip_ws r3) as [|c r4]; [discriminate|]. simpl in Hr3.
    destruct (c =? 44).
    { destruct (parse_members fuel r4) as [[ms' rest']|] eqn:He; [|discriminate].
      intros [= <- <-]. apply IHm in He. lia. }
    destruct (c =? 125); [|discriminate]. intros [= <- <-]. lia.
Qed.

(** A parse that succeeds with some fuel succeeds, with the same result, with
    any fuel above twice the length of the text. *)
Lemma parse_fuel_enough fuel :
  (forall s r, parse_value fuel s = Some r ->
     forall g, (2 * length s + 1 <= g)%nat -> parse_value g s = Some r)
  /\ (forall s r, parse_elements fuel s = Some r ->
        forall g, (2 * length s + 2 <= g)%nat -> parse_elements g s = Some r)
  /\ (forall s r, parse_members fuel s = Some r ->
        forall g, (2 * length s + 2 <= g)%nat -> parse_members g s = Some r).
Proof.
  induction fuel as [|fuel (IHv & IHe & IHm)].
  { repeat split; intros; discriminate. }
  destruct (parse_consumes fuel) as (Cv & Ce & Cm).
  split; [|split].
  - intros s r Hr [|g] Hg; [lia|]. revert Hr. cbn [parse_value].
    pose proof (skip_ws_length s) as Hs.
    destruct (skip_ws s) as [|c r0]; [discriminate|]. simpl in Hs.
    destruct (c =? QUOTE); [trivial|].
    destruct (c =? 91).
    { pose proof (skip_ws_length r0) as Hr0.
      destruct (skip_ws r0) as [|c' r']; [discriminate|].
      destruct (c' =? 93); [trivial|].
      destruct (parse_elements fuel r0) as [[vs rest']|] eqn:He; [|discriminate].
      rewrite (IHe _ _ He g) by lia. trivial. }
    destruct (c =? 123); [|trivial].
    pose proof (skip_ws_length r0) as Hr0.
    destruct (skip_ws r0) as [|c' r']; [discriminate|].
    destruct (c' =? 125); [trivial|].
    destruct (parse_members fuel r0) as [[ms rest']|] eqn:He; [|discriminate].
    rewrite (IHm _ _ He g) by lia. trivial.
  - intros s r Hr [|g] Hg; [lia|]. revert Hr. cbn [parse_elements].
    destruct (parse_value fuel s) as [[v r0]|] eqn:Hv; [|discriminate].
    rewrite (IHv _ _ Hv g) by lia. apply Cv in Hv.
    pose proof (skip_ws_length r0) as Hr0.
    destruct (skip_ws r0) as [|c r']; [discriminate|]. simpl in Hr0.
    destruct (c =? 44); [|trivial].
    destruct (parse_elements fuel r') as [[vs rest']|] eqn:He; [|discriminate].
    rewrite (IHe _ _ He g) by lia. trivial.
  - intros s r Hr [|g] Hg; [lia|]. revert Hr. cbn [parse_members].
    pose proof (skip_ws_length s) as Hs.
    destruct (skip_ws s) as [|q r0]; [discriminate|]. simpl in Hs.
    destruct (q =? QUOTE); [|discriminate].
    destruct (parse_string_body r0) as [[k r1]|] eqn:Hk; [|discriminate].
    apply parse_string_body_length in Hk.
    pose proof (skip_ws_length r1) as Hr1.
    destruct (skip_ws r1) as [|colon r2]; [discriminate|]. simpl in Hr1.
    destruct (colon =? 58); [|discriminate].
    destruct (parse_value fuel r2) as [[v r3]|] eqn:Hv; [|discriminate].
    rewrite (IHv _ _ Hv g) by lia. apply Cv in Hv.
    pose proof (skip_ws_length r3) as Hr3.
    destruct (skip_ws r3) as [|c r4]; [discriminate|]. simpl in Hr3.
    destruct (c =? 44); [|trivial].
    destruct (parse_members fuel r4) as [[ms rest']|] eqn:He; [|discriminate].
    rewrite (IHm _ _ He g) by lia. trivial.
Qed.

(** [JSON_parse] never runs out of fuel: it finds the value whenever some
    amount of fuel does. *)
Lemma JSON_parse_complete text fuel v rest :
  parse_value fuel text = Some (v, rest) ->
  skip_ws rest = [] ->
  JSON_parse text = Normal v.
Proof.
  intros Hv Hrest. unfold JSON_parse.
  destruct (parse_fuel_enough fuel) as (Ev & _ & _).
  rewrite (Ev _ _ Hv (2 * length text + 2)%nat) by lia.
  by rewrite Hrest.
Qed.

Lemma JSON_parse_rejects text e :
  JSON_parse text = Abrupt e ->
  forall fuel v rest,
    parse_value fuel text = Some (v, rest) -> skip_ws rest <> [].
Proof.
  intros Hrej fuel v rest Hv Hrest.
  rewrite (JSON_parse_complete _ _ _ _ Hv Hrest) in Hrej. discriminate.
Qed.

(** *** A JSON text of a list of pairs *)

Definition hex_digit (n : N) : N := if n <? 10 then 48 + n else 87 + n.

(** A code unit inside a JSON string: the quote and the backslash are
    escaped, a control character is written with its number. *)
Definition escape_char (c : N) : jsstring :=
  if c =? QUOTE then [BACKSLASH; QUOTE]
  else if c =? BACKSLASH then [BACKSLASH; BACKSLASH]
  else if c <? 32 then
    [BACKSLASH; 117; 48; 48; hex_digit (c / 16); hex_digit (c mod 16)]
  else [c].

Definition quoted (s : jsstring) : jsstring :=
  QUOTE :: flat_map escape_char s ++ [QUOTE].

Definition pair_text (p : TranslationPair) : jsstring :=
  js "{" ++ quoted (js "arabic") ++ js ":" ++ quoted (arabic p) ++ js ","
  ++ quoted (js "english") ++ js ":" ++ quoted (english p) ++ js "}".

Fixpoint pairs_text_tail (ps : list TranslationPair) : jsstring :=
  match ps with
  | [] => js "]"
  | p :: rest => js "," ++ pair_text p ++ pairs_text_tail rest
  end.

Definition pairs_text (ps : list TranslationPair) : jsstring :=
  match ps with
  | [] => js "[]"
  | p :: rest => js "[" ++ pair_text p ++ pairs_text_tail rest
  end.

Definition pair_json (p : TranslationPair) : json :=
  JObject [(js "arabic", JString (arabic p));
           (js "english", JString (english p))].

Lemma hex4_control c :
  c < 32 -> hex4 48 48 (hex_digit (c / 16)) (hex_digit (c mod 16)) = Some c.
Proof.
  intros Hc.
  destruct c as [|p]; [reflexivity|].
  do 5 (destruct p as [p|p|]; try reflexivity); lia.
Qed.

Lemma parse_string_body_escaped s rest :
  parse_string_body (flat_map escape_char s ++ QUOTE :: rest) = Some (s, rest).
Proof.
  induction s as [|c s IH]; [reflexivity|].
  cbn [flat_map]. unfold escape_char at 1.
  destruct (N.eqb_spec c QUOTE) as [->|Hq].
  { cbn. by rewrite IH. }
  destruct (N.eqb_spec c BACKSLASH) as [->|Hb].
  { cbn. by rewrite IH. }
  destruct (N.ltb_spec c 32) as [Hc|Hc].
  - cbn [app parse_string_body].
    change (QUOTE =? QUOTE) with true. change (BACKSLASH =? QUOTE) with false.
    change (BACKSLASH =? BACKSLASH) with true. change (117 =? 117) with true.
    cbv iota. rewrite (hex4_control c Hc), IH. reflexivity.
  - cbn [app parse_string_body].
    destruct (N.eqb_spec c QUOTE); [contradiction|].
    destruct (N.eqb_spec c BACKSLASH); [contradiction|].
    destruct (N.ltb_spec c 32); [lia|]. by rewrite IH.
Qed.

Lemma quoted_app s rest :
  quoted s ++ rest = QUOTE :: flat_map escape_char s ++ QUOTE :: rest.
Proof. unfold quoted. simpl. by rewrite <- app_assoc. Qed.

Lemma parse_value_quoted fuel s rest :
  parse_value (S fuel) (quoted s ++ rest) = Some (JString s, rest).
Proof.
  rewrite quoted_app. cbn [parse_value skip_ws].
  change (json_ws QUOTE) with false. cbv iota.
  change (QUOTE =? QUOTE) with true. cbv iota.
  by rewrite parse_string_body_escaped.
Qed.

(** One member, and what the separator after it leads to. *)
Lemma parse_members_quoted fuel k s sep rest :
  parse_members (S (S fuel)) (quoted k ++ js ":" ++ quoted s ++ sep :: rest)
  = if sep =? 32 then parse_members (S (S fuel))
                        (quoted k ++ js ":" ++ quoted s ++ sep :: rest)
    else if sep =? 44 then
      match parse_members (S fuel) rest with
      | Some (ms, rest') => Some ((k, JString s) :: ms, rest')
      | None => None
      end
    else if sep =? 125 then Some ([(k, JString s)], rest)
    else parse_members (S (S fuel))
           (quoted k ++ js ":" ++ quoted s ++ sep :: rest).
Proof.
  destruct (N.eqb_spec sep 32); [reflexivity|].
  destruct (N.eqb_spec sep 44) as [->|Hc].
  - rewrite quoted_app. cbn [parse_members skip_ws].
    change (json_ws QUOTE) with false. cbv iota.
    change (QUOTE =? QUOTE) with true. cbv iota.
    rewrite parse_string_body_escaped.
    change (js ":" ++ quoted s ++ 44 :: rest)
      with (58 :: (quoted s ++ 44 :: rest)).
    cbn [skip_ws]. change (json_ws 58) with false. cbv iota.
    change (58 =? 58) with true. cbv iota.
    rewrite parse_value_quoted. cbn [skip_ws].
    change (json_ws 44) with false. cbv iota.
    change (44 =? 44) with true. cbv iota. reflexivity.
  - destruct (N.eqb_spec sep 125) as [->|Hb]; [|reflexivity].
    rewrite quoted_app. cbn [parse_members skip_ws].
    change (json_ws QUOTE) with false. cbv iota.
    change (QUOTE =? QUOTE) with true. cbv iota.
    rewrite parse_string_body_escaped.
    change (js ":" ++ quoted s ++ 125 :: rest)
      with (58 :: (quoted s ++ 125 :: rest)).
    cbn [skip_ws]. change (json_ws 58) with false. cbv iota.
    change (58 =? 58) with true. cbv iota.
    rewrite parse_value_quoted. cbn [skip_ws].
    change (json_ws 125) with false. cbv iota.
    change (125 =? 44) with false. change (125 =? 125) with true.
    cbv iota. reflexivity.
Qed.

Lemma pair_text_app p rest :
  pair_text p ++ rest
  = 123 :: (quoted (js "arabic") ++ js ":" ++ quoted (arabic p)
            ++ 44 :: (quoted (js "english") ++ js ":" ++ quoted (english p)
                      ++ 125 :: rest)).
Proof.
  unfold pair_text. rewrite <- !app_assoc. reflexivity.
Qed.

Lemma parse_value_pair fuel p rest :
  parse_value (4 + fuel) (pair_text p ++ rest) = Some (pair_json p, rest).
Proof.
  rewrite pair_text_app.
  change (4 + fuel)%nat with (S (S (S (S fuel)))).
  cbn [parse_value skip_ws]. change (json_ws 123) with false. cbv iota.
  change (123 =? QUOTE) with false. change (123 =? 91) with false.
  change (123 =? 123) with true. cbv iota.
  rewrite quoted_app at 1. cbn [skip_ws].
  change (json_ws QUOTE) with false. cbv iota.
  change (QUOTE =? 125) with false. cbv iota.
  rewrite (parse_members_quoted (S fuel)). simpl N.eqb. cbv iota.
  rewrite (parse_members_quoted fuel). simpl N.eqb. cbv iota.
  reflexivity.
Qed.

Lemma parse_elements_pairs ps :
  forall p fuel rest,
    (length ps + 5 <= fuel)%nat ->
    parse_elements fuel (pair_text p ++ pairs_text_tail ps ++ rest)
    = Some (map pair_json (p :: ps), rest).
Proof.
  induction ps as [|q ps IH]; intros p [|fuel] rest Hf; simpl length in *;
    try lia.
  - cbn [parse_elements].
    replace fuel with (4 + (fuel - 4))%nat by lia.
    rewrite parse_value_pair. reflexivity.
  - cbn [parse_elements].
    replace fuel with (4 + (fuel - 4))%nat at 1 by lia.
    rewrite parse_value_pair.
    cbn [pairs_text_tail].
    change ((js "," ++ pair_text q ++ pairs_text_tail ps) ++ rest)
      with (44 :: ((pair_text q ++ pairs_text_tail ps) ++ rest)).
    cbn [skip_ws]. change (json_ws 44) with false. cbv iota.
    change (44 =? 44) with true. cbv iota.
    rewrite <- app_assoc. rewrite IH by lia. reflexivity.
Qed.

Lemma parse_value_pairs ps rest :
  parse_value (length ps + 6) (pairs_text ps ++ rest)
  = Some (JArray (map pair_json ps), rest).
Proof.
  destruct ps as [|p ps]; [reflexivity|].
  unfold pairs_text.
  change ((js "[" ++ pair_text p ++ pairs_text_tail ps) ++ rest)
    with (91 :: ((pair_text p ++ pairs_text_tail ps) ++ rest)).
  rewrite <- app_assoc.
  replace (length (p :: ps) + 6)%nat with (S (length ps + 6)) by (simpl; lia).
  cbn [parse_value skip_ws]. change (json_ws 91) with false. cbv iota.
  change (91 =? QUOTE) with false. change (91 =? 91) with true. cbv iota.
  rewrite (pair_text_app p) at 1. cbn [skip_ws].
  change (json_ws 123) with false. cbv iota.
  change (123 =? 93) with false. cbv iota.
  rewrite parse_elements_pairs by lia. reflexivity.
Qed.

(** The text of a list of pairs parses to these pairs, in this order. *)
Lemma JSON_parse_pairs_text ps :
  JSON_parse (pairs_text ps) = Normal (JArray (map pair_json ps)).
Proof.
  apply (JSON_parse_complete _ (length ps + 6) _ []); [|reflexivity].
  rewrite <- (app_nil_r (pairs_text ps)) at 1. apply parse_value_pairs.
Qed.

Lemma pairs_text_conforms ps :
  conforms_schema (JArray (map pair_json ps)) = true.
Proof.
  simpl. induction ps as [|p ps IH]; [reflexivity|].
  simpl. rewrite IH. reflexivity.
Qed.

(** ** The adapter *)

(** The request [translateAndAlignText] sends for a text. *)
Definition request_of (text : jsstring) : GenerateContentRequest :=
  {| model := js "gemini-3-flash-preview";
     contents := PROMPT_HEAD ++ text ++ PROMPT_TAIL;
     config := {| responseMimeType := js "application/json";
                  responseSchema := translationSchema;
                  thinkingConfig := Some 0 |} |}.

Lemma translateAndAlignText_fails ai text w e :
  ai (request_of text) = ServiceFails e ->
  translateAndAlignText ai text w
  = (Abrupt (ErrorObj TRANSLATION_FAILED), with_log (API_ERROR, Some e) w).
Proof.
  intros Hai. unfold translateAndAlignText, bind, try, generateContent.
  fold (request_of text). rewrite Hai. reflexivity.
Qed.

Lemma translateAndAlignText_unparsable ai text w resp e :
  ai (request_of text) = ServiceResponds resp ->
  JSON_parse (default (js "undefined") resp) = Abrupt e ->
  translateAndAlignText ai text w
  = (Abrupt (ErrorObj TRANSLATION_FAILED), with_log (API_ERROR, Some e) w).
Proof.
  intros Hai Hparse.
  unfold translateAndAlignText, bind, try, generateContent, call_JSON_parse.
  fold (request_of text). rewrite Hai. unfold ret. rewrite Hparse. reflexivity.
Qed.

Lemma translateAndAlignText_parsed ai text w resp v :
  ai (request_of text) = ServiceResponds resp ->
  JSON_parse (default (js "undefined") resp) = Normal v ->
  translateAndAlignText ai text w = (Normal v, w).
Proof.
  intros Hai Hparse.
  unfold translateAndAlignText, bind, try, generateContent, call_JSON_parse.
  fold (request_of text). rewrite Hai. unfold ret. rewrite Hparse. reflexivity.
Qed.

(** Every rejection of the adapter is the one translation-failure error. *)
Lemma translateAndAlignText_rejection ai text w e w' :
  translateAndAlignText ai text w = (Abrupt e, w') ->
  e = ErrorObj TRANSLATION_FAILED.
Proof.
  destruct (ai (request_of text)) as [e0|resp] eqn:Hai.
  - rewrite (translateAndAlignText_fails _ _ _ _ Hai). congruence.
  - destruct (JSON_parse (default (js "undefined") resp)) as [v|e0] eqn:Hp.
    + rewrite (translateAndAlignText_parsed _ _ _ _ _ Hai Hp). congruence.
    + rewrite (translateAndAlignText_unparsable _ _ _ _ _ Hai Hp). congruence.
Qed.

(** C2. When the response text is not empty and parses to an array of objects
    that each have the strings [arabic] and [english], the adapter resolves to
    that array: as many elements as the response has objects, the [i]-th
    element being the [i]-th object; nothing is logged. *)
Theorem translateAndAlignText_resolves ai text w resp items :
  ai (request_of text) = ServiceResponds (Some resp) ->
  resp <> [] ->
  JSON_parse resp = Normal (JArray items) ->
  forallb conforms_item items = true ->
  exists result,
    translateAndAlignText ai text w = (Normal (JArray result), w)
    /\ length result = length items
    /\ forall i, result !! i = items !! i.
Proof.
  intros Hai _ Hparse _. exists items.
  split; [|split; [reflexivity | reflexivity]].
  by apply (translateAndAlignText_parsed ai text w (Some resp)).
Qed.

(** A response of two pairs; the second has a line break in each text and
    comes with white space between the tokens. *)
Definition two_pair_response : jsstring :=
  js "[{" ++ [QUOTE] ++ js "arabic" ++ [QUOTE] ++ js ":" ++ [QUOTE]
  ++ [1571] ++ [QUOTE] ++ js "," ++ [QUOTE] ++ js "english" ++ [QUOTE]
  ++ js ":" ++ [QUOTE] ++ js "a title" ++ [QUOTE] ++ js "}, {"
  ++ [QUOTE] ++ js "english" ++ [QUOTE] ++ js " : " ++ [QUOTE]
  ++ js "row one\nrow two" ++ [QUOTE] ++ js " , " ++ [QUOTE] ++ js "arabic"
  ++ [QUOTE] ++ js ":" ++ [QUOTE] ++ [1576] ++ js "\n" ++ [1580] ++ [QUOTE]
  ++ js "} ]".

Definition two_pair_items : list json :=
  [JObject [(js "arabic", JString [1571]);
            (js "english", JString (js "a title"))];
   JObject [(js "english", JString (js "row one" ++ [LF] ++ js "row two"));
            (js "arabic", JString [1576; 10; 1580])]].

Definition empty_world : World := world_of [].

Lemma translateAndAlignText_resolves_witness :
  exists result,
    translateAndAlignText (fun _ => ServiceResponds (Some two_pair_response))
      [1571] empty_world
    = (Normal (JArray result), empty_world)
    /\ length result = 2%nat
    /\ forall i, result !! i = two_pair_items !! i.
Proof.
  apply (translateAndAlignText_resolves
           (fun _ => ServiceResponds (Some two_pair_response))
           [1571] empty_world two_pair_response two_pair_items).
  - reflexivity.
  - discriminate.
  - vm_compute. reflexivity.
  - vm_compute. reflexivity.
Defined.

(** A service that answers with the JSON text of [ps] makes the adapter
    resolve to the array of these pairs, in their order. *)
Theorem translateAndAlignText_pairs_text ai text w ps :
  ai (request_of text) = ServiceResponds (Some (pairs_text ps)) ->
  translateAndAlignText ai text w = (Normal (JArray (map pair_json ps)), w)
  /\ conforms_schema (JArray (map pair_json ps)) = true
  /\ length (map pair_json ps) = length ps.
Proof.
  intros Hai. split; [|split].
  - apply (translateAndAlignText_parsed ai text w _ _ Hai).
    apply JSON_parse_pairs_text.
  - apply pairs_text_conforms.
  - apply length_map.
Qed.

Lemma translateAndAlignText_pairs_text_witness :
  translateAndAlignText
    (fun _ => ServiceResponds (Some (pairs_text [a_title; two_lines])))
    [1571] empty_world
  = (Normal (JArray [pair_json a_title; pair_json two_lines]), empty_world).
Proof.
  exact (proj1 (translateAndAlignText_pairs_text
                  (fun _ => ServiceResponds
                              (Some (pairs_text [a_title; two_lines])))
                  [1571] empty_world [a_title; two_lines] eq_refl)).
Defined.

(** C3, as amended. When the service call fails, or the response text does
    not parse as JSON (a response without text among them), the adapter logs
    the cause and rejects with the one translation-failure error.  When the
    text parses, the adapter resolves to the whole parsed value, whether or
    not it matches the schema: it validates nothing. *)
Theorem translateAndAlignText_outcomes ai text w :
  (forall e,
     ai (request_of text) = ServiceFails e ->
     translateAndAlignText ai text w
     = (Abrupt (ErrorObj TRANSLATION_FAILED), with_log (API_ERROR, Some e) w))
  /\ (forall resp e,
        ai (request_of text) = ServiceResponds resp ->
        JSON_parse (default (js "undefined") resp) = Abrupt e ->
        translateAndAlignText ai text w
        = (Abrupt (ErrorObj TRANSLATION_FAILED),
           with_log (API_ERROR, Some e) w))
  /\ (forall resp v,
        ai (request_of text) = ServiceResponds resp ->
        JSON_parse (default (js "undefined") resp) = Normal v ->
        translateAndAlignText ai text w = (Normal v, w))
  /\ JSON_parse (js "undefined") = Abrupt SyntaxError.
Proof.
  split; [|split; [|split]].
  - intros e. apply translateAndAlignText_fails.
  - intros resp e. apply translateAndAlignText_unparsable.
  - intros resp v. apply translateAndAlignText_parsed.
  - vm_compute. reflexivity.
Qed.

(** C3 fails as stated: the response [[1]] is JSON and no array of pairs, and
    the adapter resolves to it. *)
Lemma unvalidated_response_resolves :
  conforms_schema (JArray [JNumber (js "1")]) = false
  /\ translateAndAlignText (fun _ => ServiceResponds (Some (js "[1]")))
       [1571] empty_world
     = (Normal (JArray [JNumber (js "1")]), empty_world).
Proof. split; vm_compute; reflexivity. Qed.

(** Text that is no JSON is rejected, and the cause is logged. *)
Example malformed_response_rejected :
  translateAndAlignText (fun _ => ServiceResponds (Some (js "[{oops")))
    [1571] empty_world
  = (Abrupt (ErrorObj TRANSLATION_FAILED),
     with_log (API_ERROR, Some SyntaxError) empty_world).
Proof. vm_compute. reflexivity. Qed.

(** ** The translate action *)

(** C5. With an input that is empty after trimming, the translate action
    calls no adapter and sets the input error, and the world is untouched.
    With any other input it reaches the adapter call with the loading flag
    set, the error cleared and the result sequence replaced by an empty array.
    When the adapter rejects, the message of the error is stored (the one
    translation-failure message, for every rejection of the adapter) and the
    input text and the result sequence stay as they are. *)
Theorem handleTranslate_transitions :
  (forall st w,
     falsy (trim (arabicText st)) = true ->
     handleTranslate_start st w
     = (Normal (setError (Some EMPTY_INPUT) st, None), w))
  /\ (forall st w,
        falsy (trim (arabicText st)) = false ->
        exists st' w',
          handleTranslate_start st w
          = (Normal (st', Some (arabicText st)), w')
          /\ isLoading st' = true
          /\ error st' = None
          /\ heap w' !! translationPairs st' = Some (OArray [])
          /\ arabicText st' = arabicText st)
  /\ (forall st err,
        let st' := handleTranslate_resume st (Abrupt err) in
        error st' = Some (message_or UNKNOWN_ERROR err)
        /\ arabicText st' = arabicText st
        /\ translationPairs st' = translationPairs st
        /\ isLoading st' = false)
  /\ (forall st ai text w e w',
        translateAndAlignText ai text w = (Abrupt e, w') ->
        error (handleTranslate_resume st (Abrupt e))
        = Some TRANSLATION_FAILED).
Proof.
  split; [|split; [|split]].
  - intros st w Hempty. unfold handleTranslate_start. by rewrite Hempty.
  - intros st w Hfull. unfold handleTranslate_start. rewrite Hfull.
    do 2 eexists. split; [reflexivity|]. simpl.
    repeat split. apply lookup_insert_eq.
  - intros st err. repeat split.
  - intros st ai text w e w' Hrej.
    by rewrite (translateAndAlignText_rejection _ _ _ _ _ Hrej).
Qed.

(** ** Further properties of the specification *)

Section MoreExport.
Context `{CaseConversion} (lib : Libraries).

(** The body of the document is one table of one row per body pair, in the
    order of the pairs, after the two titles and the spacer. *)
Theorem exportToWord_rows_in_order w data l0 ls title body :
  holds_pairs w data (l0 :: ls) (title :: body) ->
  body <> [] ->
  docx_construct lib (document_of title body) = None ->
  documents (PdfService.exportToWord lib (Some data) w).2
  = documents w ++ [document_of title body]
  /\ section_children (document_of title body)
     = title_paragraphs title ++ [ChildTable (bodyTable (map row_of body))]
  /\ length (map row_of body) = length body.
Proof.
  intros Hdata Hbody Hlib.
  rewrite (exportToWord_run lib w data l0 ls title body Hdata).
  unfold hand_over. rewrite Hlib. split; [|split].
  - destruct (Packer_toBlob lib _); reflexivity.
  - destruct body; [congruence | reflexivity].
  - apply length_map.
Qed.

(** With no pair to export, [handleExport] sets the input error and calls
    nothing. *)
Theorem handleExport_nothing_to_export st w :
  heap w !! translationPairs st = Some (OArray []) ->
  handleExport lib st w
  = (Normal (setError (Some NOTHING_TO_EXPORT) st, None), w).
Proof.
  intros Hdata. unfold handleExport.
  by rewrite (bind_normal _ _ _ _ _ (array_length_run _ _ _ Hdata)).
Qed.

End MoreExport.

Lemma exportToWord_rows_in_order_witness :
  documents (@PdfService.exportToWord latin1_case packing_lib
               (Some 1%positive) translated).2
  = [@document_of latin1_case a_title [two_lines]].
Proof.
  exact (proj1 (@exportToWord_rows_in_order latin1_case packing_lib translated
                  1%positive 2%positive [3%positive] a_title [two_lines]
                  translated_holds ltac:(discriminate) eq_refl)).
Defined.

Lemma handleExport_nothing_to_export_witness :
  @handleExport latin1_case packing_lib after_translation nothing_translated
  = (Normal (setError (Some NOTHING_TO_EXPORT) after_translation, None),
     nothing_translated).
Proof.
  exact (@handleExport_nothing_to_export latin1_case packing_lib
           after_translation nothing_translated eq_refl).
Defined.

(** When the adapter resolves, the state points at its array, the loading
    flag is off, and the error and the input text are as they were. *)
Theorem handleTranslate_success st result :
  let st' := handleTranslate_resume st (Normal result) in
  translationPairs st' = result
  /\ isLoading st' = false
  /\ error st' = error st
  /\ arabicText st' = arabicText st.
Proof. repeat split. Qed.

(** [JSON_parse] does not depend on its fuel: it gives a value exactly when
    some amount of fuel parses the whole text to it. *)
Theorem JSON_parse_fuel_suffices text v :
  (exists fuel rest, parse_value fuel text = Some (v, rest) /\ skip_ws rest = [])
  <-> JSON_parse text = Normal v.
Proof.
  split.
  - intros (fuel & rest & Hv & Hrest). by apply (JSON_parse_complete _ fuel _ rest).
  - unfold JSON_parse. intros Hp.
    destruct (parse_value (2 * length text + 2) text) as [[v' rest]|] eqn:Hv;
      [|discriminate].
    destruct (skip_ws rest) eqn:Hrest; [|discriminate].
    injection Hp as <-. eauto.
Qed.

(** No two spaces in a row, and no space at the start. *)
Fixpoint single_spaced (after_space : bool) (s : jsstring) : bool :=
  match s with
  | [] => true
  | c :: r =>
      if c =? SP then negb after_space && single_spaced true r
      else single_spaced false r
  end.

Lemma is_ws_SP : is_ws SP = true.
Proof. reflexivity. Qed.

Lemma replace_ws_runs_single_spaced b s :
  single_spaced b (replace_ws_runs b s) = true.
Proof.
  revert b. induction s as [|c r IH]; intros b; simpl; [reflexivity|].
  destruct (is_ws c) eqn:Hws.
  - destruct b; [apply IH|]. simpl. apply IH.
  - simpl. destruct (N.eqb_spec c SP) as [->|_].
    + rewrite is_ws_SP in Hws. discriminate.
    + apply IH.
Qed.

Lemma single_spaced_take b n s :
  single_spaced b s = true -> single_spaced b (take n s) = true.
Proof.
  revert b n. induction s as [|c r IH]; intros b [|n]; simpl; auto.
  destruct (c =? SP).
  - intros Hs. apply andb_true_iff in Hs as [-> Hr]. simpl. by apply IH.
  - apply IH.
Qed.

Lemma trim_starts_with_name s :
  match trim s with
  | [] => True
  | c :: _ => is_ws c = false
  end.
Proof.
  unfold trim, trimEnd.
  assert (Hstart : forall t, match trimStart t with
                             | [] => True
                             | c :: _ => is_ws c = false
                             end).
  { induction t as [|c t IH]; simpl; [exact I|].
    destruct (is_ws c) eqn:Hc; [exact IH | exact Hc]. }
  assert (Hsuffix : forall t, exists p, t = p ++ trimStart t).
  { induction t as [|c t [p Hp]]; simpl; [by exists []|].
    destruct (is_ws c); [|by exists []].
    exists (c :: p). simpl. by rewrite <- Hp. }
  specialize (Hstart s).
  destruct (Hsuffix (rev (trimStart s))) as [p Hp].
  apply (f_equal (@rev N)) in Hp. rewrite rev_involutive, rev_app_distr in Hp.
  destruct (rev (trimStart (rev (trimStart s)))) as [|d u]; [exact I|].
  rewrite Hp in Hstart. exact Hstart.
Qed.

(** The sanitized name has no two spaces in a row and does not start with a
    space: white space is collapsed and the ends are trimmed before the name
    is cut to 50 code units. *)
Theorem sanitizeFilename_single_spaced name :
  single_spaced true (sanitizeFilename name) = true.
Proof.
  unfold sanitizeFilename, slice0.
  destruct (falsy _) eqn:Hf; [reflexivity|].
  apply single_spaced_take.
  pose proof (trim_starts_with_name (List.filter filename_char name)) as Ht.
  destruct (trim (List.filter filename_char name)) as [|c r]; [reflexivity|].
  simpl. rewrite Ht. simpl.
  destruct (N.eqb_spec c SP) as [->|_].
  - rewrite is_ws_SP in Ht. discriminate.
  - apply replace_ws_runs_single_spaced.
Qed.


(** ** Further properties of the code *)

(** *** What one export may do to the world *)

(** A computation that touches nothing but the store. *)
Definition heap_only {A} (m : M A) : Prop :=
  forall w, exists h, (m w).2 = set_heap h w.

Lemma set_heap_set_heap h h' w : set_heap h' (set_heap h w) = set_heap h' w.
Proof. reflexivity. Qed.

Lemma set_heap_same w : set_heap (heap w) w = w.
Proof. by destruct w. Qed.

Lemma heap_only_ret {A} (a : A) : heap_only (ret a).
Proof. intros w. exists (heap w). simpl. by rewrite set_heap_same. Qed.

Lemma heap_only_throw {A} e : heap_only (@throw A e).
Proof. intros w. exists (heap w). simpl. by rewrite set_heap_same. Qed.

Lemma heap_only_bind {A B} (m : M A) (k : A -> M B) :
  heap_only m -> (forall a, heap_only (k a)) -> heap_only (bind m k).
Proof.
  intros Hm Hk w. unfold bind. destruct (Hm w) as [h Hh].
  destruct (m w) as [[a|e] w']; simpl in *; subst w'.
  - destruct (Hk a (set_heap h w)) as [h' Hh']. exists h'.
    by rewrite Hh', set_heap_set_heap.
  - by exists h.
Qed.

Lemma heap_only_mapM {A B} (f : A -> M B) l :
  (forall a, heap_only (f a)) -> heap_only (mapM f l).
Proof.
  intros Hf. induction l as [|a l IH]; simpl; [apply heap_only_ret|].
  apply heap_only_bind; [apply Hf|]. intros b.
  apply heap_only_bind; [exact IH|]. intros bs. apply heap_only_ret.
Qed.

Lemma heap_only_get_object l : heap_only (get_object l).
Proof.
  intros w. exists (heap w). unfold get_object.
  destruct (heap w !! l); simpl; by rewrite set_heap_same.
Qed.

Lemma heap_only_alloc o : heap_only (alloc o).
Proof. intros w. eexists. reflexivity. Qed.

Ltac heap_only_step :=
  first
    [ apply heap_only_ret | apply heap_only_throw | apply heap_only_get_object
    | apply heap_only_alloc
    | apply heap_only_mapM; intros ?
    | apply heap_only_bind; [|intros ?]
    | match goal with
      | |- heap_only (if ?b then _ else _) => destruct b
      | |- heap_only (match ?x with _ => _ end) => destruct x
      end ].

Lemma heap_only_array_elems a : heap_only (array_elems a).
Proof. unfold array_elems. repeat heap_only_step. Qed.

Lemma heap_only_get_pair p : heap_only (get_pair p).
Proof. unfold get_pair. repeat heap_only_step. Qed.

(** After a part that touches only the store, what holds of the rest holds
    of the whole, for a property that does not look at the store the
    computation started from. *)
Lemma bind_heap_only_post {A B} (m : M A) (k : A -> M B)
  (Q : World -> completion B * World -> Prop) :
  heap_only m ->
  (forall h w rw, Q (set_heap h w) rw -> Q w rw) ->
  (forall w e h, Q w (Abrupt e, set_heap h w)) ->
  (forall a w, Q w (k a w)) ->
  forall w, Q w (bind m k w).
Proof.
  intros Hm Hq Habrupt Hk w. unfold bind. destruct (Hm w) as [h Hh].
  destruct (m w) as [[a|e] w']; simpl in Hh; subst w'.
  - apply (Hq h). apply Hk.
  - apply Habrupt.
Qed.

(** What the call of [exportToWord] leaves, up to its return: nothing saved;
    either the diagnostic of an empty input and nothing else, or no log and
    at most one document. *)
Definition call_outcome (w : World)
  (rw : completion (option Pending) * World) : Prop :=
  saved rw.2 = saved w
  /\ ((rw.1 = Normal None
       /\ console rw.2 = console w ++ [(NO_DATA, None)]
       /\ documents rw.2 = documents w)
      \/ (rw.1 <> Normal None
          /\ console rw.2 = console w
          /\ exists d, documents rw.2 = documents w ++ d
                       /\ (length d <= 1)%nat)).

Lemma call_outcome_set_heap h w rw :
  call_outcome (set_heap h w) rw -> call_outcome w rw.
Proof. trivial. Qed.

Lemma call_outcome_abrupt w e h : call_outcome w (Abrupt e, set_heap h w).
Proof.
  split; [reflexivity|]. right. split; [discriminate|].
  split; [reflexivity|]. exists []. simpl.
  split; [by rewrite app_nil_r | lia].
Qed.

Lemma call_outcome_no_data w :
  call_outcome w ((console_error NO_DATA None ;; ret None) w).
Proof. split; [reflexivity|]. left. repeat split. Qed.

Lemma call_outcome_hand_over lib d t w :
  call_outcome w
    ((d' <- new_Document lib d ;;
      promise <- call_toBlob lib d' ;;
      ret (Some {| pending_promise := promise; pending_title := t |})) w).
Proof.
  unfold bind, new_Document, call_toBlob.
  destruct (docx_construct lib d).
  { apply (call_outcome_abrupt w _ (heap w)). }
  destruct (Packer_toBlob lib d); simpl.
  - split; [reflexivity|]. right. split; [discriminate|].
    split; [reflexivity|]. exists [d]. split; [reflexivity | simpl; lia].
  - split; [reflexivity|]. right. split; [discriminate|].
    split; [reflexivity|]. exists [d]. split; [reflexivity | simpl; lia].
Qed.

Ltac call_outcome_prefix :=
  apply bind_heap_only_post;
  [ | exact call_outcome_set_heap | exact call_outcome_abrupt | ].

Section ExportEffects.
Context `{CaseConversion} (lib : Libraries).

Lemma exportToWord_call_outcome data w :
  call_outcome w (PdfService.exportToWord lib data w).
Proof.
  destruct data as [data|]; [|apply call_outcome_no_data].
  unfold PdfService.exportToWord. revert w.
  call_outcome_prefix.
  { unfold array_length.
    repeat first [apply heap_only_array_elems | heap_only_step]. }
  intros len. destruct (Nat.eqb len 0); [exact call_outcome_no_data|].
  call_outcome_prefix.
  { unfold array_get.
    repeat first [apply heap_only_array_elems | heap_only_step]. }
  intros titlePair. call_outcome_prefix.
  { unfold array_slice, array_literal.
    repeat first [apply heap_only_array_elems | heap_only_step]. }
  intros bodyPairs. call_outcome_prefix.
  { unfold get_english.
    repeat first [apply heap_only_get_pair | heap_only_step]. }
  intros titleEnglish. call_outcome_prefix.
  { unfold get_arabic.
    repeat first [apply heap_only_get_pair | heap_only_step]. }
  intros titleArabic. call_outcome_prefix.
  { apply heap_only_array_elems. }
  intros bodyElems. call_outcome_prefix.
  { unfold PdfService.tableRow, get_arabic, get_english.
    repeat first [apply heap_only_get_pair | heap_only_step]. }
  intros tableRows w. apply call_outcome_hand_over.
Qed.

Lemma part000_exportToWord_call_outcome data w :
  call_outcome w (Part000.exportToWord lib data w).
Proof.
  destruct data as [data|]; [|apply call_outcome_no_data].
  unfold Part000.exportToWord. revert w.
  call_outcome_prefix.
  { unfold array_length.
    repeat first [apply heap_only_array_elems | heap_only_step]. }
  intros len. destruct (Nat.eqb len 0); [exact call_outcome_no_data|].
  call_outcome_prefix.
  { unfold array_get.
    repeat first [apply heap_only_array_elems | heap_only_step]. }
  intros titlePair. call_outcome_prefix.
  { unfold array_slice, array_literal.
    repeat first [apply heap_only_array_elems | heap_only_step]. }
  intros bodyPairs. call_outcome_prefix.
  { unfold get_english.
    repeat first [apply heap_only_get_pair | heap_only_step]. }
  intros titleEnglish. call_outcome_prefix.
  { unfold get_arabic.
    repeat first [apply heap_only_get_pair | heap_only_step]. }
  intros titleArabic. call_outcome_prefix.
  { apply heap_only_array_elems. }
  intros bodyElems. call_outcome_prefix.
  { unfold Part000.tableRow, get_arabic, get_english.
    repeat first [apply heap_only_get_pair | heap_only_step]. }
  intros tableRows w. apply call_outcome_hand_over.
Qed.

End ExportEffects.

(** The name a file is saved under: the sanitized title and the fixed
    suffix. *)
Definition well_named (file : Blob * jsstring) : Prop :=
  exists base,
    file.2 = base ++ FILENAME_SUFFIX
    /\ forallb allowed_char base = true
    /\ (1 <= length base <= 50)%nat.

Lemma sanitizeFilename_base name :
  forallb allowed_char (sanitizeFilename name) = true
  /\ (1 <= length (sanitizeFilename name) <= 50)%nat.
Proof.
  unfold sanitizeFilename, slice0.
  set (cleaned := take 50 _).
  assert (Hall : forallb allowed_char cleaned = true).
  { apply take_forallb, replace_ws_runs_allowed, trim_forallb,
      filter_filename_char. }
  assert (Hlen : (length cleaned <= 50)%nat).
  { subst cleaned. rewrite length_take. lia. }
  destruct cleaned as [|c r]; simpl falsy; cbv iota.
  - split; [reflexivity | vm_compute; lia].
  - split; [exact Hall | simpl in *; lia].
Qed.

Lemma reactions_effects lib p w :
  let w' := (exportToWord_reactions lib p w).2 in
  heap w' = heap w
  /\ documents w' = documents w
  /\ saved w'
     = saved w
       ++ match pending_promise p with
          | Fulfilled blob =>
              [(blob, sanitizeFilename (pending_title p) ++ FILENAME_SUFFIX)]
          | Rejected _ => []
          end
  /\ exists logs, console w' = console w ++ logs /\ (length logs <= 1)%nat.
Proof.
  unfold exportToWord_reactions.
  destruct (pending_promise p) as [blob|e]; simpl.
  - unfold bind, try, call_saveAs.
    destruct (saveAs lib blob _) as [e|]; simpl; repeat split.
    + exists [(GENERATION_ERROR, Some e)]. split; [reflexivity | simpl; lia].
    + exists []. split; [by rewrite app_nil_r | simpl; lia].
  - repeat split; [by rewrite app_nil_r|].
    exists [(GENERATION_ERROR, Some e)]. split; [reflexivity | simpl; lia].
Qed.

(** What one export adds to the world: at most one saved file, well named,
    at most one logged error and at most one constructed document. *)
Definition one_export (w w' : World) : Prop :=
  (exists files, saved w' = saved w ++ files
                 /\ (length files <= 1)%nat /\ Forall well_named files)
  /\ (exists logs, console w' = console w ++ logs /\ (length logs <= 1)%nat)
  /\ (exists docs, documents w' = documents w ++ docs
                   /\ (length docs <= 1)%nat).

(** What follows from the outcome of the call for the call with its
    reactions. *)
Lemma settled_effects lib (call : M (option Pending)) w :
  call_outcome w (call w) ->
  one_export w ((p <- call ;;
                 match p with
                 | Some p => exportToWord_reactions lib p
                 | None => ret tt
                 end) w).2.
Proof.
  unfold one_export, call_outcome, bind.
  destruct (call w) as [[[p|]|e] w1]; simpl;
    intros (Hsaved & [(Hr & Hlog & Hdocs)|(Hr & Hlog & d & Hdocs & Hd)]);
    try congruence.
  - destruct (reactions_effects lib p w1) as (_ & Hd' & Hs' & logs & Hl' & Hn).
    cbv zeta in *. rewrite Hs', Hd', Hl', Hsaved, Hlog, Hdocs.
    split; [|split; eauto].
    destruct (pending_promise p) as [blob|e0].
    + eexists. split; [reflexivity|]. split; [simpl; lia|].
      constructor; [|constructor].
      exists (sanitizeFilename (pending_title p)).
      split; [reflexivity | apply sanitizeFilename_base].
    + exists []. split; [reflexivity|]. split; [simpl; lia | constructor].
  - rewrite Hsaved, Hlog, Hdocs. split; [|split].
    + exists []. split; [by rewrite app_nil_r|]. split; [simpl; lia|constructor].
    + exists [(NO_DATA, None)]. split; [reflexivity | simpl; lia].
    + exists []. split; [by rewrite app_nil_r | simpl; lia].
  - rewrite Hsaved, Hlog, Hdocs. split; [|split].
    + exists []. split; [by rewrite app_nil_r|]. split; [simpl; lia|constructor].
    + exists []. split; [by rewrite app_nil_r | simpl; lia].
    + eauto.
Qed.

(** The argument of [exportToWord] as its type has it: [null] or
    [undefined], or an array in the store whose elements are pairs. *)
Definition sequence_in_store (w : World) (data : option loc) : Prop :=
  match data with
  | None => True
  | Some d => exists ls ps, holds_pairs w d ls ps
  end.

(** One export of a sequence of pairs, whatever the libraries do: nothing is
    saved before [exportToWord] returns; with the reactions, at most one
    file is saved, under a name made of one to fifty allowed characters and
    the fixed suffix, at most one error is logged and at most one document
    is constructed.  The same holds of both copies. *)
Theorem export_effects_bounded `{CaseConversion} lib data w :
  sequence_in_store w data ->
  saved (PdfService.exportToWord lib data w).2 = saved w
  /\ saved (Part000.exportToWord lib data w).2 = saved w
  /\ one_export w (PdfService.exportToWord_settled lib data w).2
  /\ one_export w (Part000.exportToWord_settled lib data w).2.
Proof.
  intros _.
  split; [apply (exportToWord_call_outcome lib data w)|].
  split; [apply (part000_exportToWord_call_outcome lib data w)|].
  split.
  - apply (settled_effects lib (PdfService.exportToWord lib data) w).
    apply exportToWord_call_outcome.
  - apply (settled_effects lib (Part000.exportToWord lib data) w).
    apply part000_exportToWord_call_outcome.
Qed.

Lemma export_effects_bounded_witness :
  saved (@PdfService.exportToWord latin1_case packing_lib (Some 1%positive)
           translated).2
  = saved translated
  /\ saved (@Part000.exportToWord latin1_case packing_lib (Some 1%positive)
              translated).2
     = saved translated
  /\ one_export translated
       (@PdfService.exportToWord_settled latin1_case packing_lib
          (Some 1%positive) translated).2
  /\ one_export translated
       (@Part000.exportToWord_settled latin1_case packing_lib
          (Some 1%positive) translated).2.
Proof.
  apply (@export_effects_bounded latin1_case packing_lib (Some 1%positive)
           translated).
  exists [2%positive; 3%positive], [a_title; two_lines].
  split; [reflexivity|]. repeat constructor.
Defined.

(** ** Names that need no cleaning *)

(** A name the sanitizer has nothing to do on: allowed characters only, no
    space at either end, no two spaces in a row, not empty, at most 50 code
    units. *)
Definition clean_name (s : jsstring) : bool :=
  forallb allowed_char s
  && single_spaced true s
  && single_spaced true (rev s)
  && negb (falsy s)
  && (length s <=? 50)%nat.

Lemma is_ws_range c : is_ws c = true -> c <= 13 \/ c = 32 \/ 160 <= c.
Proof.
  unfold is_ws.
  rewrite !orb_true_iff, !andb_true_iff, !N.leb_le, !N.eqb_eq. lia.
Qed.

Lemma name_char_range c : name_char c = true -> 45 <= c <= 122.
Proof.
  unfold name_char, is_letter, is_upper_az, is_lower_az, is_digit, HYPHEN.
  rewrite !orb_true_iff, !andb_true_iff, !N.leb_le, !N.eqb_eq. lia.
Qed.

Lemma allowed_char_cases c :
  allowed_char c = true -> c = SP \/ (name_char c = true /\ is_ws c = false).
Proof.
  unfold allowed_char. intros Hc.
  destruct (c =? SP) eqn:Hsp; [left; by apply N.eqb_eq|right].
  apply N.eqb_neq in Hsp.
  assert (Hn : name_char c = true).
  { unfold name_char. destruct (is_letter c), (is_digit c), (c =? HYPHEN);
      simpl in *; congruence. }
  split; [exact Hn|].
  destruct (is_ws c) eqn:Hws; [|reflexivity].
  apply is_ws_range in Hws. apply name_char_range in Hn. unfold SP in *. lia.
Qed.

Lemma allowed_filename_char c : allowed_char c = true -> filename_char c = true.
Proof.
  intros Hc. unfold filename_char.
  destruct (allowed_char_cases c Hc) as [->|[Hn _]]; [reflexivity|].
  unfold name_char in Hn.
  destruct (is_letter c), (is_digit c), (c =? HYPHEN), (is_ws c);
    simpl in *; congruence.
Qed.

Lemma filter_all {A} (f : A -> bool) l :
  forallb f l = true -> List.filter f l = l.
Proof.
  induction l as [|a l IH]; simpl; [reflexivity|].
  intros Hl. apply andb_true_iff in Hl as [-> Hl]. by rewrite IH.
Qed.

Lemma forallb_impl {A} (f g : A -> bool) l :
  (forall a, f a = true -> g a = true) ->
  forallb f l = true -> forallb g l = true.
Proof.
  intros Hfg. induction l as [|a l IH]; simpl; [reflexivity|].
  intros Hl. apply andb_true_iff in Hl as [Ha Hl].
  by rewrite (Hfg a Ha), IH.
Qed.

Lemma single_spaced_weaken s :
  single_spaced true s = true -> single_spaced false s = true.
Proof. destruct s as [|c r]; simpl; [reflexivity|]. by destruct (c =? SP). Qed.

Lemma trimStart_no_space s :
  forallb allowed_char s = true -> single_spaced true s = true ->
  trimStart s = s.
Proof.
  destruct s as [|c r]; simpl; [reflexivity|].
  intros Hall Hs. apply andb_true_iff in Hall as [Hc _].
  destruct (allowed_char_cases c Hc) as [->|[_ ->]]; [|reflexivity].
  change (SP =? SP) with true in Hs. discriminate.
Qed.

Lemma replace_ws_runs_single b s :
  forallb allowed_char s = true -> single_spaced b s = true ->
  replace_ws_runs b s = s.
Proof.
  revert b. induction s as [|c r IH]; intros b; simpl; [reflexivity|].
  intros Hall Hs. apply andb_true_iff in Hall as [Hc Hr].
  destruct (allowed_char_cases c Hc) as [->|[_ Hws]].
  - change (SP =? SP) with true in Hs. rewrite is_ws_SP.
    apply andb_true_iff in Hs as [Hb Hs]. destruct b; [discriminate|].
    by rewrite IH.
  - rewrite Hws. destruct (N.eqb_spec c SP) as [->|_].
    + rewrite is_ws_SP in Hws. discriminate.
    + by rewrite IH.
Qed.

Lemma sanitizeFilename_fixed (name : jsstring) :
  clean_name name = true -> sanitizeFilename name = name.
Proof.
  unfold clean_name. rewrite !andb_true_iff.
  intros ((((Hall & Hs) & Hrev) & Hne) & Hlen).
  apply Nat.leb_le in Hlen.
  unfold sanitizeFilename, slice0.
  rewrite (filter_all _ _ (forallb_impl _ _ _ allowed_filename_char Hall)).
  unfold trim, trimEnd.
  rewrite (trimStart_no_space name Hall Hs).
  rewrite (trimStart_no_space (rev name)) by (by rewrite ?forallb_rev).
  rewrite rev_involutive.
  rewrite (replace_ws_runs_single false name Hall (single_spaced_weaken _ Hs)).
  rewrite take_ge by lia.
  destruct name; [discriminate | reflexivity].
Qed.

(** Names that are clean already come back as they are: the sanitizer
    removes nothing, trims nothing, collapses nothing and cuts nothing. *)
Theorem sanitizeFilename_clean (name : jsstring) :
  clean_name name = true -> sanitizeFilename name = name.
Proof. apply sanitizeFilename_fixed. Qed.

Lemma sanitizeFilename_clean_witness :
  sanitizeFilename (js "Psalm 23 - A Reading") = js "Psalm 23 - A Reading".
Proof. exact (sanitizeFilename_clean (js "Psalm 23 - A Reading") eq_refl). Defined.

(** *** The title as a file name *)

Lemma allowed_is_ascii c : allowed_char c = true -> is_ascii c = true.
Proof.
  intros Hc. unfold is_ascii. apply N.ltb_lt.
  destruct (allowed_char_cases c Hc) as [->|[Hn _]]; [reflexivity|].
  apply name_char_range in Hn. lia.
Qed.

Lemma allowed_char_iff c :
  allowed_char c = true
  <-> (65 <= c <= 90 \/ 97 <= c <= 122 \/ 48 <= c <= 57 \/ c = 32 \/ c = 45).
Proof.
  unfold allowed_char, is_letter, is_upper_az, is_lower_az, is_digit, SP,
    HYPHEN.
  rewrite !orb_true_iff, !andb_true_iff, !N.leb_le, !N.eqb_eq. lia.
Qed.

Lemma ascii_lower_cases c :
  (65 <= c <= 90 /\ ascii_lower c = c + 32)
  \/ (~ 65 <= c <= 90 /\ ascii_lower c = c).
Proof.
  unfold ascii_lower, is_upper_az.
  destruct (N.leb_spec 65 c), (N.leb_spec c 90); simpl; lia.
Qed.

Lemma ascii_upper_cases c :
  (97 <= c <= 122 /\ ascii_upper c = c - 32)
  \/ (~ 97 <= c <= 122 /\ ascii_upper c = c).
Proof.
  unfold ascii_upper, is_lower_az.
  destruct (N.leb_spec 97 c), (N.leb_spec c 122); simpl; lia.
Qed.

Lemma ascii_case_allowed (b : bool) (c : N) :
  allowed_char c = true -> (c =? SP) = false ->
  let d := if b then ascii_upper (ascii_lower c) else ascii_lower c in
  allowed_char d = true /\ (d =? SP) = false.
Proof.
  intros Hc Hsp d. subst d. apply N.eqb_neq in Hsp. unfold SP in Hsp.
  apply allowed_char_iff in Hc.
  rewrite allowed_char_iff, N.eqb_neq. unfold SP.
  destruct (ascii_lower_cases c) as [[Hl ->]|[Hl ->]];
    destruct b; try lia.
  - destruct (ascii_upper_cases (c + 32)) as [[Hu ->]|[Hu ->]]; lia.
  - destruct (ascii_upper_cases c) as [[Hu ->]|[Hu ->]]; lia.
Qed.

Lemma ascii_scan_allowed b s :
  forallb allowed_char s = true ->
  forallb allowed_char (ascii_scan b s) = true.
Proof.
  revert b. induction s as [|c r IH]; intros b; simpl; [reflexivity|].
  intros Hall. apply andb_true_iff in Hall as [Hc Hr].
  destruct (c =? SP) eqn:Hsp; simpl.
  - by rewrite IH.
  - rewrite IH by assumption.
    destruct (ascii_case_allowed b c Hc Hsp) as [-> _]. reflexivity.
Qed.

(** The spaces of a title-cased ASCII text are the spaces of the text. *)
Lemma ascii_scan_spaces b s :
  forallb allowed_char s = true ->
  map (fun c => c =? SP) (ascii_scan b s) = map (fun c => c =? SP) s.
Proof.
  revert b. induction s as [|c r IH]; intros b; simpl; [reflexivity|].
  intros Hall. apply andb_true_iff in Hall as [Hc Hr].
  destruct (c =? SP) eqn:Hsp; simpl.
  - by rewrite IH.
  - rewrite IH by assumption.
    destruct (ascii_case_allowed b c Hc Hsp) as [_ ->]. reflexivity.
Qed.

Lemma single_spaced_spaces b s t :
  map (fun c => c =? SP) s = map (fun c => c =? SP) t ->
  single_spaced b s = single_spaced b t.
Proof.
  revert b t. induction s as [|c r IH]; intros b [|d t]; simpl;
    try discriminate; [reflexivity|].
  intros [= Hc Hr]. rewrite Hc. destruct (d =? SP); by rewrite (IH _ t).
Qed.

Section TitleFileName.
Context `{CaseConversion}.

Lemma toTitleCase_clean t :
  clean_name t = true -> clean_name (toTitleCase t) = true.
Proof.
  unfold clean_name. rewrite !andb_true_iff.
  intros ((((Hall & Hs) & Hrev) & Hne) & Hlen).
  rewrite (toTitleCase_ascii t)
    by (eapply forallb_impl; [apply allowed_is_ascii | exact Hall]).
  pose proof (ascii_scan_spaces true t Hall) as Hsp.
  assert (Hsp' : map (fun c => c =? SP) (rev (ascii_scan true t))
                 = map (fun c => c =? SP) (rev t))
    by (by rewrite !map_rev, Hsp).
  assert (Hl : length (ascii_scan true t) = length t).
  { apply (f_equal (@length bool)) in Hsp. by rewrite !length_map in Hsp. }
  repeat split.
  - by apply ascii_scan_allowed.
  - by rewrite (single_spaced_spaces true _ _ Hsp).
  - by rewrite (single_spaced_spaces true _ _ Hsp').
  - destruct t as [|c r]; [discriminate|].
    by destruct (ascii_scan true (c :: r)).
  - by rewrite Hl.
Qed.

(** When packing succeeds, the file of a sequence whose English title is a
    clean name is saved under the title-cased title, followed by the fixed
    suffix, and it is the only file saved. *)
Theorem exported_file_name lib w data l0 ls title body blob :
  holds_pairs w data (l0 :: ls) (title :: body) ->
  clean_name (english title) = true ->
  docx_construct lib (document_of title body) = None ->
  Packer_toBlob lib (document_of title body) = PackReturns (Fulfilled blob) ->
  saved (PdfService.exportToWord_settled lib (Some data) w).2
  = saved w ++ [(blob, toTitleCase (english title) ++ FILENAME_SUFFIX)].
Proof.
  intros Hdata Hclean Hdoc Hpack.
  unfold PdfService.exportToWord_settled, bind.
  rewrite (exportToWord_run lib w data l0 ls title body Hdata).
  unfold hand_over. rewrite Hdoc, Hpack.
  unfold exportToWord_reactions, bind, try, call_saveAs. simpl.
  rewrite (sanitizeFilename_fixed _ (toTitleCase_clean _ Hclean)).
  by destruct (saveAs lib blob _).
Qed.

End TitleFileName.

Lemma exported_file_name_witness :
  saved (@PdfService.exportToWord_settled latin1_case packing_lib
           (Some 1%positive) translated).2
  = [([80; 75], @toTitleCase latin1_case (js "a title") ++ FILENAME_SUFFIX)].
Proof.
  exact (@exported_file_name latin1_case packing_lib translated 1%positive
           2%positive [3%positive] a_title [two_lines] [80; 75]
           translated_holds eq_refl eq_refl eq_refl).
Defined.

(** ** Running the component *)

Lemma bind_run {A B} (m : M A) (k : A -> M B) w a w1 r :
  m w = (Normal a, w1) -> k a w1 = r -> (x <- m ;; k x) w = r.
Proof. intros Hm <-. by apply bind_normal. Qed.

Lemma mapM_pairs_run {B} (f : loc -> M B) (g : TranslationPair -> B) w ls ps :
  (forall l p, heap w !! l = Some (OPair p) -> f l w = (Normal (g p), w)) ->
  pairs_at (heap w) ls ps ->
  mapM f ls w = (Normal (map g ps), w).
Proof.
  intros Hf Hps. induction Hps as [|l p ls ps Hl _ IH]; [reflexivity|].
  simpl. rewrite (bind_normal _ _ _ _ _ (Hf _ _ Hl)).
  by rewrite (bind_normal _ _ _ _ _ IH).
Qed.

Definition row_view (p : TranslationPair) : RowView :=
  {| cell_arabic := arabic p; cell_english := english p |}.

Lemma TranslationTable_run w data ls ps :
  holds_pairs w data ls ps ->
  TranslationTable data w = (Normal (map row_view ps), w).
Proof.
  intros [Hdata Hps]. unfold TranslationTable.
  rewrite (bind_normal _ _ _ _ _ (array_elems_run _ _ _ Hdata)).
  apply (mapM_pairs_run _ row_view); [|exact Hps].
  intros l p Hl.
  rewrite (bind_normal _ _ _ _ _ (get_arabic_run _ _ _ Hl)).
  by rewrite (bind_normal _ _ _ _ _ (get_english_run _ _ _ Hl)).
Qed.

(** The page for a state whose sequence is in the store. *)
Definition view_of (st : AppState) (ps : list TranslationPair) : View :=
  {| textarea_value := arabicText st;
     textarea_disabled := isLoading st;
     translate_disabled := isLoading st || falsy (trim (arabicText st));
     translate_label := if isLoading st then Processing else TranslateAndAlign;
     loader_shown := isLoading st;
     alert := alert_of (error st);
     results :=
       match ps with
       | [] => None
       | title :: body =>
           if isLoading st then None
           else Some {| heading := Some (arabic title, english title);
                        table := match body with
                                 | [] => None
                                 | _ :: _ => Some (map row_view body)
                                 end;
                        export_disabled := isExporting st;
                        export_label := if isExporting st
                                        then CreatingDocument
                                        else ExportToWordDocx |}
       end |}.

Lemma App_run st w ls ps :
  holds_pairs w (translationPairs st) ls ps ->
  App st w = (Normal (view_of st ps), with_body_copy (drop 1 ls) w).
Proof.
  intros [Hdata Hps]. unfold App.
  rewrite (bind_normal _ _ _ _ _ (array_length_run _ _ _ Hdata)).
  assert (Htitle :
    (if Nat.ltb 0 (length ls) then array_get (translationPairs st) 0
     else ret None) w = (Normal (ls !! 0%nat), w)).
  { destruct ls; [reflexivity|]. apply (array_get_run _ _ _ _ Hdata). }
  rewrite (bind_normal _ _ _ _ _ Htitle).
  assert (Hcopy :
    (if Nat.ltb 1 (length ls) then array_slice (translationPairs st) 1
     else array_literal []) w
    = (Normal (fresh (dom (heap w))), with_body_copy (drop 1 ls) w)).
  { destruct ls as [|l0 [|l1 ls]]; simpl; try reflexivity.
    unfold array_slice.
    by rewrite (bind_normal _ _ _ _ _ (array_elems_run _ _ _ Hdata)). }
  rewrite (bind_normal _ _ _ _ _ Hcopy).
  set (w1 := with_body_copy (drop 1 ls) w).
  assert (Hcopied : heap w1 !! fresh (dom (heap w)) = Some (OArray (drop 1 ls)))
    by apply lookup_insert_eq.
  destruct Hps as [|l0 title ls body Hl0 Hbody].
  { simpl. reflexivity. }
  assert (Hl0' : heap w1 !! l0 = Some (OPair title))
    by (by apply alloc_lookup_old).
  assert (Hbody' : pairs_at (heap w1) ls body) by (by apply pairs_at_alloc).
  change (Nat.ltb 0 (length (l0 :: ls))) with true.
  change ((l0 :: ls) !! 0%nat) with (Some l0).
  unfold view_of. destruct (isLoading st) eqn:Hload; simpl negb; simpl andb;
    cbv iota.
  { reflexivity. }
  eapply bind_run; [|reflexivity].
  eapply bind_run.
  { eapply bind_run; [exact (get_arabic_run _ _ _ Hl0')|].
    eapply bind_run; [exact (get_english_run _ _ _ Hl0')|]. reflexivity. }
  eapply bind_run; [exact (array_length_run _ _ _ Hcopied)|].
  eapply bind_run; [|reflexivity].
  inversion Hbody' as [Els Eb|l1 p1 ls' body' Hl1 Hrest Els Eb];
    [reflexivity|].
  change (Nat.ltb 0 (length (drop 1 (l0 :: l1 :: ls')))) with true.
  eapply bind_run; [|reflexivity].
  apply (TranslationTable_run _ _ (l1 :: ls')). split; [by rewrite Els|].
  by constructor.
Qed.

(** ** The page and the handlers *)

Lemma bind_inv {A B} (m : M A) (k : A -> M B) w b w2 :
  (x <- m ;; k x) w = (Normal b, w2) ->
  exists a w1, m w = (Normal a, w1) /\ k a w1 = (Normal b, w2).
Proof.
  unfold bind. destruct (m w) as [[a|e] w1]; [|discriminate].
  intros Hk. by exists a, w1.
Qed.

Lemma array_elems_inv a w es w1 :
  array_elems a w = (Normal es, w1) ->
  w1 = w /\ heap w !! a = Some (OArray es).
Proof.
  unfold array_elems, bind, get_object.
  destruct (heap w !! a) as [[p|es']|]; simpl; try discriminate.
  by intros [= -> ->].
Qed.

Lemma array_length_inv a w n w1 :
  array_length a w = (Normal n, w1) ->
  w1 = w /\ exists es, heap w !! a = Some (OArray es) /\ n = length es.
Proof.
  unfold array_length. intros Hrun.
  apply bind_inv in Hrun as (es & w0 & Hes & Hret).
  apply array_elems_inv in Hes as [-> Hes]. injection Hret as <- <-.
  split; [reflexivity|]. by exists es.
Qed.

Lemma grows_TranslationTable data : grows (TranslationTable data).
Proof.
  unfold TranslationTable, get_arabic, get_english.
  repeat first [apply grows_array_elems | apply grows_get_pair | grows_step].
Qed.

Lemma grows_App st : grows (App st).
Proof.
  unfold App, array_length, array_get, array_slice, array_literal,
    get_arabic, get_english.
  repeat first [apply grows_array_elems | apply grows_get_pair
               | apply grows_TranslationTable | grows_step].
Qed.

(** What every page the component returns has in it. *)
Lemma App_inv st w v w1 :
  App st w = (Normal v, w1) ->
  textarea_value v = arabicText st
  /\ textarea_disabled v = isLoading st
  /\ translate_disabled v = isLoading st || falsy (trim (arabicText st))
  /\ loader_shown v = isLoading st
  /\ alert v = alert_of (error st)
  /\ forall r, results v = Some r ->
       isLoading st = false
       /\ export_disabled r = isExporting st
       /\ export_label r = (if isExporting st then CreatingDocument
                            else ExportToWordDocx)
       /\ exists es, es <> []
            /\ heap w !! translationPairs st = Some (OArray es).
Proof.
  unfold App. intros Happ.
  apply bind_inv in Happ as (len & wa & Hlen & Happ).
  apply array_length_inv in Hlen as (-> & es & Hes & ->).
  apply bind_inv in Happ as (titlePair & wb & _ & Happ).
  apply bind_inv in Happ as (tableData & wc & _ & Happ).
  apply bind_inv in Happ as (shown & wd & Hshown & Happ).
  injection Happ as <- <-. simpl.
  do 5 (split; [reflexivity|]).
  intros r ->.
  destruct es as [|l0 ls]; [discriminate|].
  destruct (isLoading st); [discriminate|].
  change (Nat.ltb 0 (length (l0 :: ls)) && negb false) with true in Hshown.
  cbv iota in Hshown.
  apply bind_inv in Hshown as (h & w2 & _ & Hshown).
  apply bind_inv in Hshown as (tableLen & w3 & _ & Hshown).
  apply bind_inv in Hshown as (t & w4 & _ & Hshown).
  injection Hshown as <- <-. simpl.
  do 3 (split; [reflexivity|]).
  by exists (l0 :: ls).
Qed.

(** The texts of the results block, in reading order. *)
Definition row_view_texts (r : RowView) : list jsstring :=
  [cell_arabic r; cell_english r].

Lemma flat_map_row_texts `{CaseConversion} body :
  flat_map row_texts (map row_of body)
  = flat_map row_view_texts (map row_view body).
Proof. induction body as [|p body IH]; simpl; [reflexivity|]. by rewrite IH. Qed.

Lemma document_of_texts `{CaseConversion} title body :
  document_texts (document_of title body)
  = [arabic title; toTitleCase (english title); []]
    ++ flat_map row_view_texts (map row_view body).
Proof.
  unfold document_texts, document_of. simpl.
  destruct body as [|p body]; [reflexivity|].
  cbn [flat_map child_texts rows bodyTable app].
  rewrite app_nil_r. by rewrite flat_map_row_texts.
Qed.

Lemma holds_pairs_alloc w data ls ps o :
  holds_pairs w data ls ps ->
  holds_pairs (set_heap (<[fresh (dom (heap w)) := o]> (heap w)) w) data ls ps.
Proof.
  intros [Hdata Hps]. split; [by apply alloc_lookup_old|].
  by apply pairs_at_alloc.
Qed.

Lemma translateAndAlignText_rejection_heap ai text w e w' :
  translateAndAlignText ai text w = (Abrupt e, w') ->
  e = ErrorObj TRANSLATION_FAILED /\ heap w' = heap w.
Proof.
  destruct (ai (request_of text)) as [e0|resp] eqn:Hai.
  - rewrite (translateAndAlignText_fails _ _ _ _ Hai). by intros [= <- <-].
  - destruct (JSON_parse (default (js "undefined") resp)) as [v|e0] eqn:Hp.
    + rewrite (translateAndAlignText_parsed _ _ _ _ _ Hai Hp). congruence.
    + rewrite (translateAndAlignText_unparsable _ _ _ _ _ Hai Hp).
      by intros [= <- <-].
Qed.

(** The translate button is enabled only when a click on it reaches the
    adapter: the component calls the adapter with the text the textarea
    shows, and the branch of [handleTranslate] that reports an empty input is
    not taken. *)
Theorem enabled_translate_button_calls_adapter st w v w1 :
  App st w = (Normal v, w1) ->
  translate_disabled v = false ->
  exists st' w2,
    handleTranslate_start st w1 = (Normal (st', Some (textarea_value v)), w2)
    /\ isLoading st' = true
    /\ error st' = None
    /\ heap w2 !! translationPairs st' = Some (OArray []).
Proof.
  intros Happ Henabled.
  destruct (App_inv _ _ _ _ Happ) as (-> & _ & Hdis & _).
  rewrite Henabled in Hdis. symmetry in Hdis.
  apply orb_false_iff in Hdis as [_ Hfull].
  unfold handleTranslate_start. rewrite Hfull.
  do 2 eexists. split; [reflexivity|]. simpl.
  repeat split. apply lookup_insert_eq.
Qed.

Lemma enabled_translate_button_calls_adapter_witness :
  exists st' w2,
    handleTranslate_start after_translation (with_body_copy [3%positive] translated)
    = (Normal (st', Some (arabicText after_translation)), w2)
    /\ isLoading st' = true
    /\ error st' = None
    /\ heap w2 !! translationPairs st' = Some (OArray []).
Proof.
  apply (enabled_translate_button_calls_adapter after_translation translated
           (view_of after_translation [a_title; two_lines])
           (with_body_copy [3%positive] translated));
    vm_compute; reflexivity.
Defined.

Section PageAndExport.
Context `{CaseConversion} (lib : Libraries).

(** The export button is on the page only when a click on it exports: the
    handler passes its emptiness test, sets the exporting flag and starts the
    one 800 ms timer that clears the flag again, whatever the export does.
    The page drawn from the state the handler leaves shows the button
    disabled, with its other label. *)
Theorem shown_export_button_exports st w v w1 r :
  App st w = (Normal v, w1) ->
  results v = Some r ->
  exists st' p w2,
    handleExport lib st w1 = (Normal (st', p), w2)
    /\ isExporting st' = true
    /\ timeouts st' = timeouts st ++ [800]
    /\ translationPairs st' = translationPairs st
    /\ isExporting (fire_timeouts st') = false
    /\ forall v' w3 r',
         App st' w2 = (Normal v', w3) -> results v' = Some r' ->
         export_disabled r' = true /\ export_label r' = CreatingDocument.
Proof.
  intros Happ Hshown.
  destruct (App_inv _ _ _ _ Happ) as (_ & _ & _ & _ & _ & Hres).
  destruct (Hres r Hshown) as (_ & _ & _ & es & Hne & Hes).
  assert (Hes1 : heap w1 !! translationPairs st = Some (OArray es)).
  { pose proof (grows_lookup _ w _ _ (grows_App st) Hes) as Hl.
    by rewrite Happ in Hl. }
  pose proof (handleExport_catches lib st w1 es Hes1 Hne) as Hrun.
  cbv zeta in Hrun.
  assert (Hview : forall st', isExporting st' = true ->
    forall v' w2 w3 r',
      App st' w2 = (Normal v', w3) -> results v' = Some r' ->
      export_disabled r' = true /\ export_label r' = CreatingDocument).
  { intros st' Hflag v' w2 w3 r' Happ' Hr'.
    destruct (App_inv _ _ _ _ Happ') as (_ & _ & _ & _ & _ & Hres').
    destruct (Hres' r' Hr') as (_ & -> & -> & _). by rewrite Hflag. }
  destruct (PdfService.exportToWord lib (Some (translationPairs st)) w1)
    as [[p|e] w2]; rewrite Hrun.
  - eexists _, p, w2. split; [reflexivity|].
    do 3 (split; [reflexivity|]).
    split; [unfold fire_timeouts; simpl; by destruct (timeouts st)|].
    intros v' w3 r' Happ' Hr'. eapply Hview; [|exact Happ'|exact Hr']. reflexivity.
  - eexists _, None, w2. split; [reflexivity|].
    do 3 (split; [reflexivity|]).
    split; [unfold fire_timeouts; simpl; by destruct (timeouts st)|].
    intros v' w3 r' Happ' Hr'. eapply Hview; [|exact Happ'|exact Hr']. reflexivity.
Qed.

(** What the results block shows is what the export writes.  For a result
    of a title and body pairs, the document constructed by a click on the
    export button of the page holds, in order, the Arabic heading as shown,
    the English heading as shown but title-cased, the empty spacer, and then
    the two cells of every row shown, row by row. *)
Theorem exported_document_holds_the_page st w l0 ls title body :
  holds_pairs w (translationPairs st) (l0 :: ls) (title :: body) ->
  isLoading st = false ->
  docx_construct lib (document_of title body) = None ->
  exists v w1 r st' p w2 d,
    App st w = (Normal v, w1)
    /\ results v = Some r
    /\ heading r = Some (arabic title, english title)
    /\ default [] (table r) = map row_view body
    /\ handleExport lib st w1 = (Normal (st', p), w2)
    /\ documents w2 = documents w ++ [d]
    /\ document_texts d
       = [arabic title; toTitleCase (english title); []]
         ++ flat_map row_view_texts (default [] (table r)).
Proof.
  intros Hdata Hload Hok.
  pose proof (App_run st w _ _ Hdata) as Happ.
  set (w1 := with_body_copy (drop 1 (l0 :: ls)) w) in Happ.
  assert (Hdata1 :
    holds_pairs w1 (translationPairs st) (l0 :: ls) (title :: body))
    by apply holds_pairs_alloc, Hdata.
  pose proof (handleExport_run lib st w1 _ _ _ _ Hdata1) as Hrun.
  cbv zeta in Hrun. unfold hand_over in Hrun. rewrite Hok in Hrun.
  assert (Htable :
    default [] match body with
               | [] => None
               | _ :: _ => Some (map row_view body)
               end = map row_view body) by (by destruct body).
  unfold view_of in Happ. rewrite Hload in Happ.
  destruct (Packer_toBlob lib (document_of title body)) as [e|promise];
    do 7 eexists;
    (split; [exact Happ|]); (split; [reflexivity|]);
    (split; [reflexivity|]); (split; [exact Htable|]);
    (split; [exact Hrun|]); (split; [reflexivity|]);
    simpl table; rewrite Htable; apply document_of_texts.
Qed.

End PageAndExport.

Lemma shown_export_button_exports_witness :
  exists st' p w2,
    @handleExport latin1_case packing_lib after_translation
      (with_body_copy [3%positive] translated)
    = (Normal (st', p), w2)
    /\ isExporting st' = true
    /\ timeouts st' = timeouts after_translation ++ [800]
    /\ translationPairs st' = translationPairs after_translation
    /\ isExporting (fire_timeouts st') = false
    /\ forall v' w3 r',
         App st' w2 = (Normal v', w3) -> results v' = Some r' ->
         export_disabled r' = true /\ export_label r' = CreatingDocument.
Proof.
  apply (@shown_export_button_exports latin1_case packing_lib
           after_translation translated
           (view_of after_translation [a_title; two_lines])
           (with_body_copy [3%positive] translated)
           {| heading := Some (arabic a_title, english a_title);
              table := Some [row_view two_lines];
              export_disabled := false;
              export_label := ExportToWordDocx |});
    vm_compute; reflexivity.
Defined.

Lemma exported_document_holds_the_page_witness :
  exists v w1 r st' p w2 d,
    App after_translation translated = (Normal v, w1)
    /\ results v = Some r
    /\ heading r = Some ([1571], js "a title")
    /\ default [] (table r) = [row_view two_lines]
    /\ @handleExport latin1_case packing_lib after_translation w1
       = (Normal (st', p), w2)
    /\ documents w2 = [d]
    /\ document_texts d
       = [[1571]; js "A Title"; []]
         ++ flat_map row_view_texts (default [] (table r)).
Proof.
  exact (@exported_document_holds_the_page latin1_case packing_lib
           after_translation translated 2%positive [3%positive]
           a_title [two_lines] translated_holds eq_refl eq_refl).
Defined.

(** ** The pages of one translation *)

(** The page while the adapter works. *)
Definition loading_page (input : jsstring) : View :=
  {| textarea_value := input; textarea_disabled := true;
     translate_disabled := true; translate_label := Processing;
     loader_shown := true; alert := None; results := None |}.

(** The page with nothing under the form but, maybe, an alert. *)
Definition form_page (input : jsstring) (message : option jsstring) : View :=
  {| textarea_value := input; textarea_disabled := false;
     translate_disabled := false; translate_label := TranslateAndAlign;
     loader_shown := false; alert := message; results := None |}.

(** The page after a translation of a title and body pairs. *)
Definition results_page (input : jsstring) (exporting : bool)
  (title : TranslationPair) (body : list TranslationPair) : View :=
  {| textarea_value := input; textarea_disabled := false;
     translate_disabled := false; translate_label := TranslateAndAlign;
     loader_shown := false; alert := None;
     results :=
       Some {| heading := Some (arabic title, english title);
               table := match body with
                        | [] => None
                        | _ :: _ => Some (map row_view body)
                        end;
               export_disabled := exporting;
               export_label := if exporting then CreatingDocument
                               else ExportToWordDocx |} |}.

(** The pages of one translation of an input that is not blank.  While the
    adapter works the page shows the loader, both controls disabled, and
    neither the earlier results nor an earlier alert.  When the adapter
    rejects, the page shows its one failure message, no results, and the
    form enabled with the input kept.  When it resolves to a title and body
    pairs, the page shows the two headings as they came and one row per body
    pair in order.  When it resolves to an empty array, the page shows the
    form alone: no results and no message. *)
Theorem pages_of_a_translation st w :
  falsy (trim (arabicText st)) = false ->
  exists st1 w1,
    handleTranslate_start st w = (Normal (st1, Some (arabicText st)), w1)
    /\ (exists w', App st1 w1 = (Normal (loading_page (arabicText st)), w'))
    /\ (forall ai e w2,
          translateAndAlignText ai (arabicText st) w1 = (Abrupt e, w2) ->
          exists w',
            App (handleTranslate_resume st1 (Abrupt e)) w2
            = (Normal (form_page (arabicText st) (Some TRANSLATION_FAILED)),
               w'))
    /\ (forall result w2 l0 ls title body,
          holds_pairs w2 result (l0 :: ls) (title :: body) ->
          exists w',
            App (handleTranslate_resume st1 (Normal result)) w2
            = (Normal (results_page (arabicText st) (isExporting st)
                         title body), w'))
    /\ (forall result w2,
          heap w2 !! result = Some (OArray []) ->
          exists w',
            App (handleTranslate_resume st1 (Normal result)) w2
            = (Normal (form_page (arabicText st) None), w')).
Proof.
  intros Hfull. unfold handleTranslate_start. rewrite Hfull.
  do 2 eexists. split; [reflexivity|].
  set (st1 := setTranslationPairs _ _).
  set (w1 := set_heap _ w).
  assert (Hempty : heap w1 !! translationPairs st1 = Some (OArray []))
    by apply lookup_insert_eq.
  split; [|split; [|split]].
  - eexists. rewrite (App_run st1 w1 [] []); [|by split; [|constructor]].
    reflexivity.
  - intros ai e w2 Hrej.
    apply translateAndAlignText_rejection_heap in Hrej as [-> Hheap].
    eexists.
    rewrite (App_run (handleTranslate_resume st1
                        (Abrupt (ErrorObj TRANSLATION_FAILED))) w2 [] []).
    2:{ split; [|constructor]. simpl. rewrite Hheap. exact Hempty. }
    unfold view_of, form_page. simpl. by rewrite Hfull.
  - intros result w2 l0 ls title body Hdata. eexists.
    rewrite (App_run (handleTranslate_resume st1 (Normal result)) w2 _ _
               Hdata).
    unfold view_of, results_page. simpl. by rewrite Hfull.
  - intros result w2 Hdata. eexists.
    rewrite (App_run (handleTranslate_resume st1 (Normal result)) w2 [] []);
      [|by split; [|constructor]].
    unfold view_of, form_page. simpl. by rewrite Hfull.
Qed.

Lemma pages_of_a_translation_witness :
  exists st1 w1,
    handleTranslate_start after_translation translated
    = (Normal (st1, Some (arabicText after_translation)), w1)
    /\ (exists w',
          App st1 w1
          = (Normal (loading_page (arabicText after_translation)), w'))
    /\ (forall ai e w2,
          translateAndAlignText ai (arabicText after_translation) w1
          = (Abrupt e, w2) ->
          exists w',
            App (handleTranslate_resume st1 (Abrupt e)) w2
            = (Normal (form_page (arabicText after_translation)
                         (Some TRANSLATION_FAILED)), w'))
    /\ (forall result w2 l0 ls title body,
          holds_pairs w2 result (l0 :: ls) (title :: body) ->
          exists w',
            App (handleTranslate_resume st1 (Normal result)) w2
            = (Normal (results_page (arabicText after_translation)
                         (isExporting after_translation) title body), w'))
    /\ (forall result w2,
          heap w2 !! result = Some (OArray []) ->
          exists w',
            App (handleTranslate_resume st1 (Normal result)) w2
            = (Normal (form_page (arabicText after_translation) None), w')).
Proof.
  exact (pages_of_a_translation after_translation translated eq_refl).
Defined.

(** ** The loader *)

(** The index of the loader after [n] ticks of its 1500 ms interval. *)
Definition Loader_after (n : nat) : nat := Nat.iter n Loader_tick 0%nat.

(** The loader starts at its first message, moves on by one message with
    every tick, is back at the first after every fifth, and so always has a
    message to show. *)
Theorem Loader_cycles n :
  Loader_after n = (n mod 5)%nat
  /\ Loader_after (n + 5) = Loader_after n
  /\ is_Some (Loader (Loader_after n)).
Proof.
  assert (Hiter : forall k, Loader_after k = (k mod 5)%nat).
  { induction k as [|k IH]; [reflexivity|].
    unfold Loader_after in *. simpl Nat.iter. rewrite IH.
    unfold Loader_tick. change (length Loader_messages) with 5%nat.
    rewrite Nat.Div0.add_mod_idemp_l. f_equal. lia. }
  split; [apply Hiter|]. split.
  - rewrite !Hiter. change 5%nat with (1 * 5)%nat at 1.
    by rewrite Nat.Div0.mod_add.
  - rewrite Hiter. apply lookup_lt_is_Some_2.
    change (length Loader_messages) with 5%nat.
    apply Nat.mod_upper_bound. discriminate.
Qed.

(** ** [src/unnamed/part_000]: what the line splitter keeps *)

(** A string without its white space. *)
Definition visible (s : jsstring) : jsstring :=
  List.filter (fun c => negb (is_ws c)) s.

Definition no_line_feed (s : jsstring) : bool :=
  forallb (fun c => negb (c =? LF)) s.

Lemma split_lines_first s : exists l ls, split_lines s = l :: ls.
Proof.
  pose proof (split_lines_nonempty s) as Hn.
  destruct (split_lines s) as [|l ls]; [congruence|]. by exists l, ls.
Qed.

Lemma split_lines_no_line_feed s :
  Forall (fun l => no_line_feed l = true) (split_lines s).
Proof.
  induction s as [|c r IH]; [by repeat constructor|].
  cbn [split_lines].
  destruct (c =? LF) eqn:Hc; [by constructor|].
  destruct r as [|c' r'].
  { repeat constructor. unfold no_line_feed. simpl. by rewrite Hc. }
  destruct (split_lines_first (c' :: r')) as (l & ls & Hl).
  rewrite Hl in IH |- *. inversion IH as [|? ? Hhead Htail]; subst.
  destruct ((c =? CR) && (c' =? LF)); constructor; try assumption.
  - reflexivity.
  - unfold no_line_feed in *. simpl. by rewrite Hc.
Qed.

Lemma visible_cons_ws c s : is_ws c = true -> visible (c :: s) = visible s.
Proof. intros Hc. unfold visible. simpl. by rewrite Hc. Qed.

Lemma visible_app s t : visible (s ++ t) = visible s ++ visible t.
Proof. apply List.filter_app. Qed.

Lemma visible_rev s : visible (rev s) = rev (visible s).
Proof.
  induction s as [|c s IH]; [reflexivity|].
  simpl rev. rewrite visible_app, IH. unfold visible. simpl.
  destruct (is_ws c); simpl; [by rewrite app_nil_r | reflexivity].
Qed.

Lemma visible_trimStart s : visible (trimStart s) = visible s.
Proof.
  induction s as [|c s IH]; [reflexivity|]. cbn [trimStart].
  destruct (is_ws c) eqn:Hc; [|reflexivity].
  by rewrite IH, visible_cons_ws.
Qed.

Lemma visible_trim s : visible (trim s) = visible s.
Proof.
  unfold trim, trimEnd.
  by rewrite visible_rev, visible_trimStart, visible_rev, rev_involutive,
    visible_trimStart.
Qed.

Lemma visible_split_lines s : visible (concat (split_lines s)) = visible s.
Proof.
  induction s as [|c r IH]; [reflexivity|].
  cbn [split_lines].
  destruct (c =? LF) eqn:Hc.
  { apply N.eqb_eq in Hc as ->. simpl concat. by rewrite IH. }
  destruct r as [|c' r']; [reflexivity|].
  destruct ((c =? CR) && (c' =? LF)) eqn:Hcr.
  - apply andb_true_iff in Hcr as [Hc1 Hc2].
    apply N.eqb_eq in Hc1 as ->. apply N.eqb_eq in Hc2 as ->.
    cbn [split_lines] in IH |- *. simpl N.eqb in IH |- *. cbv iota in IH |- *.
    simpl concat in IH |- *. rewrite IH. reflexivity.
  - destruct (split_lines_first (c' :: r')) as (l & ls & Hl).
    rewrite Hl in IH |- *. simpl concat in IH |- *.
    unfold visible in *. simpl List.filter. by rewrite IH.
Qed.

Lemma visible_concat_trim ls :
  visible (concat (map trim ls)) = visible (concat ls).
Proof.
  induction ls as [|l ls IH]; [reflexivity|].
  simpl. by rewrite !visible_app, visible_trim, IH.
Qed.

Lemma trimStart_head s :
  match trimStart s with
  | [] => True
  | c :: _ => is_ws c = false
  end.
Proof.
  induction s as [|c s IH]; [exact I|]. simpl.
  by destruct (is_ws c) eqn:Hc.
Qed.

Lemma trimStart_fixed s :
  match s with
  | [] => True
  | c :: _ => is_ws c = false
  end ->
  trimStart s = s.
Proof. destruct s as [|c s]; [reflexivity|]. simpl. by intros ->. Qed.

Lemma trimStart_keeps_last a c :
  is_ws c = false -> exists p, trimStart (a ++ [c]) = p ++ [c].
Proof.
  intros Hc. induction a as [|d a IH]; simpl.
  - rewrite Hc. by exists [].
  - destruct (is_ws d); [exact IH|]. by exists (d :: a).
Qed.

Lemma trim_trim s : trim (trim s) = trim s.
Proof.
  unfold trim, trimEnd.
  pose proof (trimStart_head s) as Hs.
  set (t := trimStart s) in *.
  assert (Hfix : trimStart (rev (trimStart (rev t))) = rev (trimStart (rev t))).
  { destruct t as [|c t']; [reflexivity|].
    simpl rev. destruct (trimStart_keeps_last (rev t') c Hs) as [p ->].
    rewrite rev_app_distr. simpl. by rewrite Hs. }
  rewrite Hfix, rev_involutive.
  by rewrite (trimStart_fixed _ (trimStart_head (rev t))).
Qed.

Lemma createParagraphsFromText_texts text isRtl al :
  flat_map paragraph_texts (Part000.createParagraphsFromText text isRtl al)
  = map trim (split_lines text).
Proof.
  unfold Part000.createParagraphsFromText.
  induction (split_lines text) as [|l ls IH]; [reflexivity|].
  simpl. by rewrite IH.
Qed.

(** The line splitter of [src/unnamed/part_000] loses nothing but white
    space: the texts of the paragraphs it makes, put together, are the input
    text with some white space taken out. *)
Theorem createParagraphsFromText_keeps_visible text isRtl al :
  visible (concat (flat_map paragraph_texts
                     (Part000.createParagraphsFromText text isRtl al)))
  = visible text.
Proof.
  by rewrite createParagraphsFromText_texts, visible_concat_trim,
    visible_split_lines.
Qed.

(** No text the line splitter puts in a paragraph holds a line feed, and
    none starts or ends with white space: trimming it again changes
    nothing. *)
Theorem createParagraphsFromText_lines_clean text isRtl al :
  Forall (fun t => no_line_feed t = true /\ trim t = t)
    (flat_map paragraph_texts
       (Part000.createParagraphsFromText text isRtl al)).
Proof.
  rewrite createParagraphsFromText_texts.
  apply Forall_map.
  eapply Forall_impl; [apply split_lines_no_line_feed|].
  intros l Hl. simpl. split; [|apply trim_trim].
  unfold no_line_feed in *. by apply trim_forallb.
Qed.

(** The two copies of the adapter differ in the request alone.  The earlier
    copy names another model and sends no thinking configuration, where
    [src/services/geminiService.ts] sends a thinking budget of 0; both ask
    for JSON output under the same schema, and both put the text between an
    instruction and the same closing lines.  So the requests of the two
    copies are never the same.  Whenever the service answers the request of
    the earlier copy as it answers the request of the later one, both copies
    resolve to the same value or reject with the same error, and log the
    same. *)
Theorem adapter_copies_agree ai text w :
  ai (Part001.request_of text) = ai (request_of text) ->
  Part001.translateAndAlignText ai text w = translateAndAlignText ai text w
  /\ model (Part001.request_of text) = js "gemini-2.5-flash"
  /\ model (request_of text) = js "gemini-3-flash-preview"
  /\ thinkingConfig (config (Part001.request_of text)) = None
  /\ thinkingConfig (config (request_of text)) = Some 0
  /\ responseMimeType (config (Part001.request_of text))
     = responseMimeType (config (request_of text))
  /\ responseSchema (config (Part001.request_of text))
     = responseSchema (config (request_of text))
  /\ contents (Part001.request_of text)
     = Part001.PROMPT_HEAD ++ text ++ PROMPT_TAIL
  /\ contents (request_of text) = PROMPT_HEAD ++ text ++ PROMPT_TAIL
  /\ Part001.request_of text <> request_of text.
Proof.
  intros Hsame. split; [|repeat split; discriminate].
  unfold Part001.translateAndAlignText, translateAndAlignText, bind, try,
    generateContent.
  fold (Part001.request_of text). fold (request_of text).
  by rewrite Hsame.
Qed.

Lemma adapter_copies_agree_witness :
  Part001.translateAndAlignText
    (fun _ => ServiceResponds (Some two_pair_response)) [1571] empty_world
  = translateAndAlignText
      (fun _ => ServiceResponds (Some two_pair_response)) [1571] empty_world.
Proof.
  exact (proj1 (adapter_copies_agree
                  (fun _ => ServiceResponds (Some two_pair_response))
                  [1571] empty_world eq_refl)).
Defined.

(** ** The two copies of the exporter, side by side *)

Section ExporterCopies.
Context `{CaseConversion} (lib : Libraries).

(** The rows and the document of [src/unnamed/part_000], as functions of the
    pairs. *)
Definition part000_row_of (p : TranslationPair) : TableRow :=
  {| cantSplit := true;
     row_children :=
       [ {| verticalAlign := TOP;
            cell_children :=
              Part000.createParagraphsFromText (arabic p) true RIGHT |};
         {| verticalAlign := TOP;
            cell_children :=
              Part000.createParagraphsFromText (english p) false LEFT |} ] |}.

Definition part000_document_of (title : TranslationPair)
  (body : list TranslationPair) : Document :=
  doc ([ChildParagraph (Part000.arabicTitle (arabic title));
        ChildParagraph (englishTitle (toTitleCase (english title)));
        ChildParagraph spacer]
       ++ match body with
          | [] => []
          | _ :: _ => [ChildTable (bodyTable (map part000_row_of body))]
          end).

Lemma part000_tableRow_run w l p :
  heap w !! l = Some (OPair p) ->
  Part000.tableRow l w = (Normal (part000_row_of p), w).
Proof.
  intros Hl. unfold Part000.tableRow.
  rewrite (bind_normal _ _ _ _ _ (get_arabic_run _ _ _ Hl)).
  by rewrite (bind_normal _ _ _ _ _ (get_english_run _ _ _ Hl)).
Qed.

Lemma part000_exportToWord_run w data l0 ls title body :
  holds_pairs w data (l0 :: ls) (title :: body) ->
  Part000.exportToWord lib (Some data) w
  = hand_over lib (part000_document_of title body)
      (toTitleCase (english title)) (with_body_copy ls w).
Proof.
  intros [Hdata Hps]. inversion Hps as [|? ? ? ? Hl0 Hbody]; subst.
  unfold Part000.exportToWord.
  eapply bind_run; [exact (array_length_run _ _ _ Hdata)|].
  change (Nat.eqb (length (l0 :: ls)) 0) with false. cbv iota.
  eapply bind_run; [exact (array_get_run _ _ _ 0%nat Hdata)|].
  simpl lookup.
  assert (Hcopy :
    (if Nat.ltb 1 (length (l0 :: ls)) then array_slice data 1
     else array_literal []) w
    = (Normal (fresh (dom (heap w))), with_body_copy ls w)).
  { destruct ls as [|l1 ls]; simpl.
    - reflexivity.
    - unfold array_slice.
      by rewrite (bind_normal _ _ _ _ _ (array_elems_run _ _ _ Hdata)). }
  eapply bind_run; [exact Hcopy|].
  set (w1 := with_body_copy ls w).
  assert (Hl0' : heap w1 !! l0 = Some (OPair title))
    by (by apply alloc_lookup_old).
  assert (Hbody' : pairs_at (heap w1) ls body) by (by apply pairs_at_alloc).
  assert (Hcopied : heap w1 !! fresh (dom (heap w)) = Some (OArray ls))
    by apply lookup_insert_eq.
  eapply bind_run; [exact (get_english_run _ _ _ Hl0')|].
  eapply bind_run; [exact (get_arabic_run _ _ _ Hl0')|].
  eapply bind_run; [exact (array_elems_run _ _ _ Hcopied)|].
  eapply bind_run.
  { exact (mapM_pairs_run _ part000_row_of _ _ _
             (part000_tableRow_run w1) Hbody'). }
  assert (Hdoc :
    doc ([ChildParagraph (Part000.arabicTitle (arabic title));
          ChildParagraph (englishTitle (toTitleCase (english title)));
          ChildParagraph spacer]
         ++ (if Nat.ltb 0 (length ls)
             then [ChildTable (bodyTable (map part000_row_of body))] else []))
    = part000_document_of title body).
  { unfold part000_document_of.
    apply Forall2_length in Hbody. destruct ls, body; simpl in *; congruence. }
  rewrite Hdoc. unfold hand_over, bind, new_Document, call_toBlob.
  destruct (docx_construct lib (part000_document_of title body));
    [reflexivity|].
  destruct (Packer_toBlob lib (part000_document_of title body)); reflexivity.
Qed.





(** A text of one line with no white space around it. *)
Definition one_trimmed_line (t : jsstring) : bool :=
  no_line_feed t && bool_decide (trim t = t).

Lemma split_lines_one_line t : no_line_feed t = true -> split_lines t = [t].
Proof.
  unfold no_line_feed. induction t as [|c r IH]; [reflexivity|].
  simpl forallb. intros [Hc Hr]%andb_true_iff.
  apply negb_true_iff in Hc. cbn [split_lines]. rewrite Hc.
  destruct r as [|c' r']; [reflexivity|].
  assert (Hc' : (c' =? LF) = false).
  { simpl in Hr. apply andb_true_iff in Hr as [Hc' _].
    by apply negb_true_iff in Hc'. }
  rewrite Hc', andb_false_r. by rewrite (IH Hr).
Qed.

Lemma one_trimmed_line_texts t isRtl al :
  one_trimmed_line t = true ->
  flat_map paragraph_texts (Part000.createParagraphsFromText t isRtl al) = [t].
Proof.
  intros [Hline Htrim]%andb_true_iff. apply bool_decide_eq_true in Htrim.
  rewrite createParagraphsFromText_texts, (split_lines_one_line _ Hline).
  simpl. by rewrite Htrim.
Qed.

Lemma part000_rows_texts body :
  forallb (fun p => one_trimmed_line (arabic p)
                    && one_trimmed_line (english p)) body = true ->
  flat_map row_texts (map part000_row_of body)
  = flat_map row_texts (map row_of body).
Proof.
  induction body as [|p body IH]; [reflexivity|].
  simpl forallb. intros [[Ha He]%andb_true_iff Hbody]%andb_true_iff.
  cbn [map flat_map]. rewrite (IH Hbody). f_equal.
  unfold row_texts, part000_row_of, cell_texts.
  cbn [row_children flat_map cell_children].
  by rewrite (one_trimmed_line_texts _ _ _ Ha),
    (one_trimmed_line_texts _ _ _ He).
Qed.

(** The two copies of the exporter write the same texts when no body text
    has more than one line or white space around it: from the same pairs,
    both hand the library a document under the same title, and the two
    documents hold the same texts in the same order. *)
Theorem exporter_copies_agree w data l0 ls title body :
  holds_pairs w data (l0 :: ls) (title :: body) ->
  forallb (fun p => one_trimmed_line (arabic p)
                    && one_trimmed_line (english p)) body = true ->
  exists d d',
    PdfService.exportToWord lib (Some data) w
    = hand_over lib d (toTitleCase (english title)) (with_body_copy ls w)
    /\ Part000.exportToWord lib (Some data) w
       = hand_over lib d' (toTitleCase (english title)) (with_body_copy ls w)
    /\ document_texts d' = document_texts d.
Proof.
  intros Hdata Hbody.
  exists (document_of title body), (part000_document_of title body).
  split; [exact (exportToWord_run lib _ _ _ _ _ _ Hdata)|].
  split; [exact (part000_exportToWord_run _ _ _ _ _ _ Hdata)|].
  unfold document_texts, part000_document_of, document_of, title_paragraphs.
  simpl. destruct body as [|p body]; [reflexivity|].
  cbn [flat_map child_texts rows bodyTable app].
  by rewrite (part000_rows_texts _ Hbody).
Qed.

End ExporterCopies.


Definition one_line : TranslationPair :=
  {| arabic := [1576; 1580]; english := js "row one" |}.

Definition translated_lines : World :=
  world_of [(1%positive, OArray [2%positive; 3%positive]);
            (2%positive, OPair a_title);
            (3%positive, OPair one_line)].

Lemma exporter_copies_agree_witness :
  exists d d',
    @PdfService.exportToWord latin1_case packing_lib (Some 1%positive)
      translated_lines
    = hand_over packing_lib d (js "A Title")
        (with_body_copy [3%positive] translated_lines)
    /\ @Part000.exportToWord latin1_case packing_lib (Some 1%positive)
         translated_lines
       = hand_over packing_lib d' (js "A Title")
           (with_body_copy [3%positive] translated_lines)
    /\ document_texts d' = document_texts d.
Proof.
  apply (@exporter_copies_agree latin1_case packing_lib translated_lines
           1%positive 2%positive [3%positive] a_title [one_line]).
  - split; [reflexivity|]. repeat constructor.
  - vm_compute. reflexivity.
Defined.
